(** * Retrieval market accounting, wire decoding and the mount API

    A shallow embedding of
    - [retrievalmarket/types.go]: deal status predicates, [Params] and its
      payment schedule ([IntervalLowerBound], [nextInterval],
      [OutstandingBalance], [NextInterval]), the [NewParams] constructors and
      the [...FromNode] decoders;
    - [dagstore/mount_api.go]: [FetchUnsealedPiece] and [GetUnpaddedCARSize];
    - the byte form and the CBOR form of [TokenAmount] exercised by the
      token amount tests.

    Go's [uint64] is an integer in [0, 2^64) whose arithmetic wraps; a
    [big.Int] of go-state-types is a possibly nil pointer to an unbounded
    integer; a [for] loop is a fuelled recursion and "the call returns [v]"
    means that some amount of fuel yields [v]. *)

From Stdlib Require Import ZArith NArith List Bool String Ascii Lia Znumtheory.
From Stdlib.Strings Require Import Byte.
From Stdlib Require Import DecimalString DecimalN.
Import ListNotations.
Open Scope Z_scope.
Set Warnings "-register-all".

(** ** Outcomes of a Go call *)

Module Exec.

(** A call returns a value, panics (nil pointer dereference), or is still
    inside a loop when the fuel runs out. *)
Inductive exec (A : Type) : Type :=
| Ret (a : A)
| Panic
| OutOfFuel.
Arguments Ret {A} a.
Arguments Panic {A}.
Arguments OutOfFuel {A}.

Definition bind {A B : Type} (m : exec A) (k : A -> exec B) : exec B :=
  match m with
  | Ret a => k a
  | Panic => Panic
  | OutOfFuel => OutOfFuel
  end.

Definition of_option {A : Type} (o : option A) : exec A :=
  match o with
  | Some a => Ret a
  | None => OutOfFuel
  end.

End Exec.
Import Exec.

Declare Scope exec_scope.
Delimit Scope exec_scope with exec.
Notation "x <- m ;; k" := (bind m (fun x => k))
  (at level 61, m at next level, right associativity) : exec_scope.
Open Scope exec_scope.

(** ** Machine integers *)

Module Uint64.

Definition modulus : Z := 2 ^ 64.
Definition max : Z := modulus - 1.

(** The values a [uint64] variable can hold. *)
Definition in_range (z : Z) : Prop := 0 <= z < modulus.

(** Result of an arithmetic operation, reduced as the hardware does. *)
Definition wrap (z : Z) : Z := z mod modulus.

Definition add (a b : Z) : Z := wrap (a + b).

(** The conversion [int64(x)] of a [uint64]: same bits, signed reading. *)
Definition to_int64 (x : Z) : Z :=
  if x <? 2 ^ 63 then x else x - modulus.

End Uint64.

(** ** go-state-types [big.Int]

    [type Int struct { *big.Int }]: the wrapped pointer may be nil. The
    methods dereference it (and so panic on nil) except [Nil] and
    [NilOrZero], which test the pointer first. *)

Module Big.

Definition Int : Type := option Z.

Definition NewInt (i : Z) : Int := Some i.
Definition Zero : Int := NewInt 0.

Definition Nil (a : Int) : bool :=
  match a with None => true | Some _ => false end.

(** [bi.Int.Sign() == 0] *)
Definition IsZero (a : Int) : exec bool :=
  match a with
  | Some x => Ret (x =? 0)
  | None => Panic
  end.

(** [bi.Int == nil || bi.Int.Sign() == 0] *)
Definition NilOrZero (a : Int) : bool :=
  match a with
  | Some x => x =? 0
  | None => true
  end.

(** [a.Int.Cmp(b.Int)]; math/big answers 0 for two identical pointers
    before it looks at either. *)
Definition Cmp (a b : Int) : exec comparison :=
  match a, b with
  | Some x, Some y => Ret (x ?= y)
  | None, None => Ret Eq
  | _, _ => Panic
  end.

Definition LessThan (a b : Int) : exec bool :=
  c <- Cmp a b ;;
  Ret (match c with Lt => true | _ => false end).

Definition GreaterThan (a b : Int) : exec bool :=
  c <- Cmp a b ;;
  Ret (match c with Gt => true | _ => false end).

Definition lift2 (f : Z -> Z -> Z) (a b : Int) : exec Int :=
  match a, b with
  | Some x, Some y => Ret (Some (f x y))
  | _, _ => Panic
  end.

Definition Add : Int -> Int -> exec Int := lift2 Z.add.
Definition Sub : Int -> Int -> exec Int := lift2 Z.sub.
Definition Mul : Int -> Int -> exec Int := lift2 Z.mul.

(** [big.Int.Div] is Euclidean division and panics on a zero divisor. *)
Definition Div (a b : Int) : exec Int :=
  match a, b with
  | Some x, Some y =>
      if y =? 0 then Panic
      else Ret (Some (if 0 <? y then x / y else - (x / - y)))
  | _, _ => Panic
  end.

(** [Uint64()]: the low 64 bits of the magnitude. *)
Definition Uint64 (a : Int) : exec Z :=
  match a with
  | Some x => Ret (Uint64.wrap (Z.abs x))
  | None => Panic
  end.

End Big.

(** [abi.TokenAmount] is [big.Int]. *)
Definition TokenAmount : Type := Big.Int.

(** ** IPLD nodes

    [datamodel.Node] is an interface: a variable of that type is either nil
    or holds a node of one of the data-model kinds, among them the null
    node [datamodel.Null]. *)

Definition Cid : Type := list Z.

Inductive IpldNode : Type :=
| NNull
| NBool (b : bool)
| NInt (z : Z)
| NString (s : string)
| NBytes (bs : list byte)
| NLink (c : Cid)
| NList (items : list IpldNode)
| NMap (entries : list (string * IpldNode)).

(** [None] is the nil interface value. *)
Definition Node : Type := option IpldNode.

(** [shared.CborGenCompatibleNode] *)
Record CborGenCompatibleNode : Type := mkCborGenCompatibleNode {
  CborNode : Node
}.

(** Modelled from the spec: [CborGenCompatibleNode.IsNull] of package
    [shared] is not among the sources. The spec has the selector "present
    (not the null marker)": it is null when the Go field was never set or
    when it holds the null marker of the data model. *)
Definition IsNull (sn : CborGenCompatibleNode) : bool :=
  match CborNode sn with
  | None => true
  | Some NNull => true
  | Some _ => false
  end.

(** ** [retrievalmarket/types.go] *)

Module RetrievalMarket.

(** *** Deal status predicates *)

(** [type DealStatus uint64] *)
Definition DealStatus : Type := Z.

Section Status.

(** The status constants are declared in another file of the package;
    the predicates only compare against them. *)
Variables DealStatusDealNotFound DealStatusFailing
          DealStatusRejected DealStatusCompleted : DealStatus.

Definition IsTerminalError (status : DealStatus) : bool :=
  (status =? DealStatusDealNotFound)
  || (status =? DealStatusFailing)
  || (status =? DealStatusRejected).

Definition IsTerminalSuccess (status : DealStatus) : bool :=
  status =? DealStatusCompleted.

Definition IsTerminalStatus (status : DealStatus) : bool :=
  IsTerminalError status || IsTerminalSuccess status.

End Status.

(** *** Params *)

Record Params : Type := mkParams {
  Selector : CborGenCompatibleNode;
  PieceCID : option Cid;
  PricePerByte : TokenAmount;
  PaymentInterval : Z;
  PaymentIntervalIncrease : Z;
  UnsealPrice : TokenAmount
}.

(** [Params{}] *)
Definition ParamsZero : Params :=
  mkParams (mkCborGenCompatibleNode None) None None 0 0 None.

Definition SelectorSpecified (p : Params) : bool :=
  negb (IsNull (Selector p)).

(** The [for target <= currentInterval] loop of [IntervalLowerBound]. *)
Fixpoint IntervalLowerBound_loop (fuel : nat) (increase currentInterval : Z)
         (intervalSize lowerBound target : Z) : option Z :=
  if target <=? currentInterval then
    match fuel with
    | O => None
    | S fuel' =>
        IntervalLowerBound_loop fuel' increase currentInterval
          (Uint64.add intervalSize increase)
          target
          (Uint64.add target intervalSize)
    end
  else Some lowerBound.

Definition IntervalLowerBound (fuel : nat) (p : Params)
           (currentInterval : Z) : option Z :=
  IntervalLowerBound_loop fuel (PaymentIntervalIncrease p) currentInterval
    (PaymentInterval p) 0 0.

(** The [for nextInterval <= currentInterval] loop of [nextInterval]. *)
Fixpoint nextInterval_loop (fuel : nat) (increase currentInterval : Z)
         (intervalSize next : Z) : option Z :=
  if next <=? currentInterval then
    match fuel with
    | O => None
    | S fuel' =>
        nextInterval_loop fuel' increase currentInterval
          (Uint64.add intervalSize increase)
          (Uint64.add next intervalSize)
    end
  else Some next.

Definition nextInterval (fuel : nat) (p : Params)
           (currentInterval : Z) : option Z :=
  nextInterval_loop fuel (PaymentIntervalIncrease p) currentInterval
    (PaymentInterval p) 0.

Definition OutstandingBalance (fuel : nat) (p : Params)
           (fundsReceived : TokenAmount) (sent : Z)
           (inFinalization : bool) : exec Big.Int :=
  unpaid <- Big.LessThan fundsReceived (UnsealPrice p) ;;
  if unpaid : bool then Big.Sub (UnsealPrice p) fundsReceived
  else
    free <- Big.IsZero (PricePerByte p) ;;
    if free : bool then Ret Big.Zero
    else
      transferPayment <- Big.Sub fundsReceived (UnsealPrice p) ;;
      lowerBound <- of_option (IntervalLowerBound fuel p sent) ;;
      let minimumBytesToPay :=
        if inFinalization then sent else lowerBound in
      totalPaymentRequired <-
        Big.Mul (Big.NewInt (Uint64.to_int64 minimumBytesToPay))
                (PricePerByte p) ;;
      owed <- Big.Sub totalPaymentRequired transferPayment ;;
      negative <- Big.LessThan owed Big.Zero ;;
      if negative : bool then Ret Big.Zero else Ret owed.

Definition NextInterval (fuel : nat) (p : Params)
           (fundsReceived : TokenAmount) : exec Z :=
  if Big.NilOrZero (PricePerByte p) then Ret 0
  else
    bytesPaid <-
      (if negb (Big.NilOrZero (UnsealPrice p))
       then Big.Sub fundsReceived (UnsealPrice p)
       else Ret fundsReceived) ;;
    bytesPaid <- Big.Div bytesPaid (PricePerByte p) ;;
    positive <- Big.GreaterThan bytesPaid Big.Zero ;;
    currentInterval <-
      (if positive : bool then Big.Uint64 bytesPaid else Ret 0) ;;
    of_option (nextInterval fuel p currentInterval).

Definition NewParamsV0 (pricePerByte : TokenAmount)
           (paymentInterval paymentIntervalIncrease : Z) : Params :=
  mkParams (mkCborGenCompatibleNode None) None pricePerByte
           paymentInterval paymentIntervalIncrease Big.Zero.

(** Go's [(Params, error)]: the error is [None] for nil. *)
Definition NewParamsV1 (pricePerByte : TokenAmount)
           (paymentInterval paymentIntervalIncrease : Z)
           (sel : Node) (pieceCid : option Cid)
           (unsealPrice : TokenAmount) : Params * option string :=
  match sel with
  | None => (ParamsZero, Some "selector required for NewParamsV1"%string)
  | Some _ =>
      (mkParams (mkCborGenCompatibleNode sel) pieceCid pricePerByte
                paymentInterval paymentIntervalIncrease unsealPrice,
       None)
  end.

(** *** Wire records and their decoders *)

(** [type DealID uint64] *)
Definition DealID : Type := Z.

Record DealProposal : Type := mkDealProposal {
  PayloadCID : Cid;
  ProposalID : DealID;
  ProposalParams : Params
}.

Record DealResponse : Type := mkDealResponse {
  Status : DealStatus;
  ResponseID : DealID;
  PaymentOwed : TokenAmount;
  Message : string
}.

(** The signed voucher belongs to the payment channel actor and is carried
    as it is. *)
Record DealPayment : Type := mkDealPayment {
  PaymentID : DealID;
  PaymentChannel : list byte;
  PaymentVoucher : option IpldNode
}.

(** What an [interface{}] returned by [shared.TypeFromNode] can hold: a
    pointer to one of the wire records, or something else (nil included). *)
Inductive GoValue : Type :=
| VDealProposal (dp : option DealProposal)
| VDealResponse (dr : option DealResponse)
| VDealPayment (dp : option DealPayment)
| VOther.

(** The [ptrValue] argument of [shared.TypeFromNode]. *)
Inductive PtrType : Type :=
| PtrDealProposal
| PtrDealResponse
| PtrDealPayment.

Section FromNode.

(** [shared.TypeFromNode(node, ptrValue) (interface{}, error)]; it is
    only ever called on a non-nil node. *)
Variable TypeFromNode :
  IpldNode -> PtrType -> exec (GoValue * option string).

(** [fmt.Errorf("empty voucher")] *)
Definition ErrEmptyVoucher : string := "empty voucher".

(** [dp, _ := dpIface.(T)] with [T] the pointer type: the two-result
    assertion gives nil, not a panic, on another dynamic type. *)
Definition assertDealProposal (v : GoValue) : option DealProposal :=
  match v with VDealProposal dp => dp | _ => None end.

Definition assertDealResponse (v : GoValue) : option DealResponse :=
  match v with VDealResponse dr => dr | _ => None end.

Definition assertDealPayment (v : GoValue) : option DealPayment :=
  match v with VDealPayment dp => dp | _ => None end.

Definition DealProposalFromNode (node : Node)
  : exec (option DealProposal * option string) :=
  match node with
  | None => Ret (None, Some ErrEmptyVoucher)
  | Some n =>
      r <- TypeFromNode n PtrDealProposal ;;
      match r with
      | (_, Some err) =>
          Ret (None, Some ("invalid DealProposal: " ++ err)%string)
      | (dpIface, None) => Ret (assertDealProposal dpIface, None)
      end
  end.

Definition DealResponseFromNode (node : Node)
  : exec (option DealResponse * option string) :=
  match node with
  | None => Ret (None, Some ErrEmptyVoucher)
  | Some n =>
      r <- TypeFromNode n PtrDealResponse ;;
      match r with
      | (_, Some err) =>
          Ret (None, Some ("invalid DealResponse: " ++ err)%string)
      | (dpIface, None) => Ret (assertDealResponse dpIface, None)
      end
  end.

Definition DealPaymentFromNode (node : Node)
  : exec (option DealPayment * option string) :=
  match node with
  | None => Ret (None, Some ErrEmptyVoucher)
  | Some n =>
      r <- TypeFromNode n PtrDealPayment ;;
      match r with
      | (_, Some err) =>
          Ret (None, Some ("invalid DealPayment: " ++ err)%string)
      | (dpIface, None) => Ret (assertDealPayment dpIface, None)
      end
  end.

End FromNode.

(** *** Queries and quotes *)

(** [address.Address] and [peer.ID] are byte strings. *)
Definition Address : Type := list byte.
Definition PeerID : Type := string.

(** [type QueryResponseStatus uint64] and its [iota] constants *)
Definition QueryResponseStatus : Type := Z.
Definition QueryResponseAvailable : QueryResponseStatus := 0.
Definition QueryResponseUnavailable : QueryResponseStatus := 1.
Definition QueryResponseError : QueryResponseStatus := 2.

(** [type QueryItemStatus uint64] and its [iota] constants *)
Definition QueryItemStatus : Type := Z.
Definition QueryItemAvailable : QueryItemStatus := 0.
Definition QueryItemUnavailable : QueryItemStatus := 1.
Definition QueryItemUnknown : QueryItemStatus := 2.

Record QueryParams : Type := mkQueryParams {
  QueryPieceCID : option Cid
}.

Record Query : Type := mkQuery {
  QueryPayloadCID : Cid;
  QueryQueryParams : QueryParams
}.

Definition NewQueryV0 (payloadCID : Cid) : Query :=
  mkQuery payloadCID (mkQueryParams None).

Definition NewQueryV1 (payloadCID : Cid) (pieceCID : option Cid) : Query :=
  mkQuery payloadCID (mkQueryParams pieceCID).

Record QueryResponse : Type := mkQueryResponse {
  ResponseStatus : QueryResponseStatus;
  PieceCIDFound : QueryItemStatus;
  Size : Z;
  PaymentAddress : Address;
  MinPricePerByte : TokenAmount;
  MaxPaymentInterval : Z;
  MaxPaymentIntervalIncrease : Z;
  ResponseMessage : string;
  ResponseUnsealPrice : TokenAmount
}.

(** [QueryResponse{}] *)
Definition QueryResponseUndefined : QueryResponse :=
  mkQueryResponse 0 0 0 [] None 0 0 EmptyString None.

(** [big.Add(big.Mul(qr.MinPricePerByte, abi.NewTokenAmount(int64(qr.Size))),
    qr.UnsealPrice)] *)
Definition PieceRetrievalPrice (qr : QueryResponse) : exec Big.Int :=
  perByte <- Big.Mul (MinPricePerByte qr)
                     (Big.NewInt (Uint64.to_int64 (Size qr))) ;;
  Big.Add perByte (ResponseUnsealPrice qr).

(** *** Deal identifiers *)

(** [fmt.Sprintf("%d", d)]: the decimal digits of an unsigned integer. *)
Definition DealID_String (d : DealID) : string :=
  NilZero.string_of_uint (N.to_uint (Z.to_N d)).

Record ProviderDealIdentifier : Type := mkProviderDealIdentifier {
  IdentifierReceiver : PeerID;
  IdentifierDealID : DealID
}.

Section IdentifierString.

(** [peer.ID.String], the text form that [%v] prints for a peer. *)
Variable PeerID_String : PeerID -> string.

(** [fmt.Sprintf("%v/%v", p.Receiver, p.DealID)] *)
Definition ProviderDealIdentifier_String (p : ProviderDealIdentifier) : string :=
  (PeerID_String (IdentifierReceiver p) ++ "/"
   ++ DealID_String (IdentifierDealID p))%string.

End IdentifierString.

End RetrievalMarket.

(** ** The wire schemas and the typed decoding of a node *)

Module Wire.
Import RetrievalMarket.

(** The fragment of the IPLD schema language that the [BindnodeSchema]
    strings of [types.go] use. *)
Inductive Ty : Type :=
| TAny
| TInt
| TBytes
| TString
| TLink
| TNullable (t : Ty)
| TListOf (t : Ty)
| TStructMap (fields : list (string * Ty))
| TStructTuple (fields : list (string * Ty)).

Definition ParamsSchema : Ty :=
  TStructMap
    [ ("Selector", TNullable TAny);
      ("PieceCID", TNullable TLink);
      ("PricePerByte", TBytes);
      ("PaymentInterval", TInt);
      ("PaymentIntervalIncrease", TInt);
      ("UnsealPrice", TBytes) ]%string.

Definition DealProposalSchema : Ty :=
  TStructMap
    [ ("PayloadCID", TLink);
      ("ID", TInt);
      ("Params", ParamsSchema) ]%string.

Definition DealResponseSchema : Ty :=
  TStructMap
    [ ("Status", TInt);
      ("ID", TInt);
      ("PaymentOwed", TBytes);
      ("Message", TString) ]%string.

Definition ModVerifyParamsSchema : Ty :=
  TStructTuple
    [ ("Actor", TBytes); ("Method", TInt); ("Data", TBytes) ]%string.

Definition MergeSchema : Ty :=
  TStructTuple [ ("Lane", TInt); ("Nonce", TInt) ]%string.

Definition SignedVoucherSchema : Ty :=
  TStructTuple
    [ ("ChannelAddr", TBytes);
      ("TimeLockMin", TInt);
      ("TimeLockMax", TInt);
      ("SecretPreimage", TBytes);
      ("Extra", TNullable ModVerifyParamsSchema);
      ("Lane", TInt);
      ("Nonce", TInt);
      ("Amount", TBytes);
      ("MinSettleHeight", TInt);
      ("Merges", TListOf MergeSchema);
      ("Signature", TNullable TBytes) ]%string.

Definition DealPaymentSchema : Ty :=
  TStructMap
    [ ("ID", TInt);
      ("PaymentChannel", TBytes);
      ("PaymentVoucher", TNullable SignedVoucherSchema) ]%string.

Definition schemaOf (pt : PtrType) : Ty :=
  match pt with
  | PtrDealProposal => DealProposalSchema
  | PtrDealResponse => DealResponseSchema
  | PtrDealPayment => DealPaymentSchema
  end.

Fixpoint lookupField (name : string) (entries : list (string * IpldNode))
  : option IpldNode :=
  match entries with
  | [] => None
  | (k, v) :: rest => if String.eqb k name then Some v else lookupField name rest
  end.

(** Modelled from the spec: the shape check behind [shared.TypeFromNode]
    (package [shared], not among the sources). The spec has decoding
    "validate the node against the expected shape and fail with a
    descriptive error (not a panic) on: null/absent payload, wrong field
    count, wrong field types". [mismatch t n] is [None] when [n] has
    shape [t] and the description of the first fault otherwise. *)
Fixpoint mismatch (t : Ty) (n : IpldNode) {struct t} : option string :=
  match t with
  | TAny => None
  | TInt =>
      match n with
      | NInt _ => None
      | NNull => Some "null payload where Int is expected"
      | _ => Some "wrong field type: Int expected"
      end%string
  | TBytes =>
      match n with
      | NBytes _ => None
      | NNull => Some "null payload where Bytes is expected"
      | _ => Some "wrong field type: Bytes expected"
      end%string
  | TString =>
      match n with
      | NString _ => None
      | NNull => Some "null payload where String is expected"
      | _ => Some "wrong field type: String expected"
      end%string
  | TLink =>
      match n with
      | NLink _ => None
      | NNull => Some "null payload where Link is expected"
      | _ => Some "wrong field type: Link expected"
      end%string
  | TNullable t' =>
      match n with
      | NNull => None
      | _ => mismatch t' n
      end
  | TListOf t' =>
      match n with
      | NList items =>
          (fix each (l : list IpldNode) : option string :=
             match l with
             | [] => None
             | i :: rest =>
                 match mismatch t' i with
                 | None => each rest
                 | Some e => Some e
                 end
             end) items
      | NNull => Some "null payload where List is expected"
      | _ => Some "wrong field type: List expected"
      end%string
  | TStructMap fields =>
      match n with
      | NMap entries =>
          if (List.length entries =? List.length fields)%nat then
            (fix each (fs : list (string * Ty)) : option string :=
               match fs with
               | [] => None
               | (name, ft) :: rest =>
                   match lookupField name entries with
                   | None => Some ("missing field " ++ name)%string
                   | Some v =>
                       match mismatch ft v with
                       | None => each rest
                       | Some e => Some (name ++ ": " ++ e)%string
                       end
                   end
               end) fields
          else Some "wrong field count"%string
      | NNull => Some "null payload where a struct is expected"
      | _ => Some "wrong field type: Map expected"
      end%string
  | TStructTuple fields =>
      match n with
      | NList items =>
          if (List.length items =? List.length fields)%nat then
            (fix each (fs : list (string * Ty)) (l : list IpldNode)
               : option string :=
               match fs, l with
               | (name, ft) :: rest, v :: l' =>
                   match mismatch ft v with
                   | None => each rest l'
                   | Some e => Some (name ++ ": " ++ e)%string
                   end
               | _, _ => None
               end) fields items
          else Some "wrong field count"%string
      | NNull => Some "null payload where a struct is expected"
      | _ => Some "wrong field type: List expected"
      end%string
  end.

(** Modelled from the spec: [shared.TypeFromNode] (package [shared], not
    among the sources) validates the node against the schema of the
    requested type and either hands the bound value over or returns the
    description of the fault; [unwrap] stands for the binding of a
    well-shaped node to the Go record. *)
Definition TypeFromNode (unwrap : PtrType -> IpldNode -> GoValue)
           (n : IpldNode) (pt : PtrType) : exec (GoValue * option string) :=
  match mismatch (schemaOf pt) n with
  | None => Ret (unwrap pt n, None)
  | Some e => Ret (VOther, Some e)
  end.

End Wire.

(** ** The byte form and the CBOR form of a token amount *)

Module TokenAmountBytes.

Definition byte_value (b : byte) : Z := Z.of_N (Byte.to_N b).

(** The byte of value [z mod 256]. *)
Definition byte_of (z : Z) : byte :=
  match Byte.of_N (Z.to_N (z mod 256)) with
  | Some b => b
  | None => x00
  end.

(** Big-endian magnitude of a byte string: [big.Int.SetBytes]. *)
Definition magnitude_from (acc : Z) (bs : list byte) : Z :=
  fold_left (fun a b => a * 256 + byte_value b) bs acc.





(** *** The CBOR form *)

(** [n] as [w] bytes, most significant first (the low [w] bytes of [n]). *)
Fixpoint be_fixed_acc (w : nat) (n : Z) (acc : list byte) : list byte :=
  match w with
  | O => acc
  | S w' => be_fixed_acc w' (n / 256) (byte_of n :: acc)
  end.

Definition be_fixed (w : nat) (n : Z) : list byte := be_fixed_acc w n [].

(** Major type 2 of CBOR, a byte string. *)
Definition MajByteString : Z := 2.

(** The head of a CBOR data item (RFC 8949, section 3): the major type in
    the high three bits of the first byte, and the argument either in its
    low five bits, when below 24, or in the 1, 2, 4 or 8 bytes after it. *)
Definition cborHeader (maj arg : Z) : list byte :=
  if arg <? 24 then [byte_of (maj * 32 + arg)]
  else if arg <? 2 ^ 8 then byte_of (maj * 32 + 24) :: be_fixed 1 arg
  else if arg <? 2 ^ 16 then byte_of (maj * 32 + 25) :: be_fixed 2 arg
  else if arg <? 2 ^ 32 then byte_of (maj * 32 + 26) :: be_fixed 4 arg
  else byte_of (maj * 32 + 27) :: be_fixed 8 arg.

(** The number of bytes that hold the argument, by the low five bits of
    the first byte; 28 to 31 announce no argument of a definite length. *)
Definition argWidth (info : Z) : option nat :=
  if info =? 24 then Some 1%nat
  else if info =? 25 then Some 2%nat
  else if info =? 26 then Some 4%nat
  else if info =? 27 then Some 8%nat
  else None.

(** The first [k] bytes of the input and what follows them, when there
    are that many. *)
Definition take_exact (k : nat) (buf : list byte)
  : option (list byte * list byte) :=
  if (k <=? List.length buf)%nat then Some (firstn k buf, skipn k buf)
  else None.

(** Reads the head of a data item: major type, argument, rest of input. *)
Definition readHeader (buf : list byte) : option (Z * Z * list byte) :=
  match buf with
  | [] => None
  | b :: rest =>
      let maj := byte_value b / 32 in
      let info := byte_value b mod 32 in
      if info <? 24 then Some (maj, info, rest)
      else
        match argWidth info with
        | None => None
        | Some w =>
            match take_exact w rest with
            | None => None
            | Some (arg, rest') => Some (maj, magnitude_from 0 arg, rest')
            end
        end
  end.






End TokenAmountBytes.

(** ** [dagstore/mount_api.go] *)

Module DagStore.

(** [abi.PaddedPieceSize.Unpadded] *)
Definition Unpadded (s : Z) : Z := s - s / 128.

(** [piecestore.DealInfo] *)
Record DealInfo : Type := mkDealInfo {
  DealID : Z;
  SectorID : Z;
  Offset : Z;
  Length : Z
}.

(** [piecestore.PieceInfo] *)
Record PieceInfo : Type := mkPieceInfo {
  PieceCID : Cid;
  Deals : list DealInfo
}.

Section MountAPI.

(** The piece store and the provider node are interfaces. A call on
    either answers with an error or a value and may change the state
    [World] behind them. *)
Variables World Reader : Type.
Variable GetPieceInfo : Cid -> World -> (string + PieceInfo) * World.
Variable IsUnsealed : Z -> Z -> Z -> World -> (string + bool) * World.
Variable UnsealSector : Z -> Z -> Z -> World -> (string + Reader) * World.

Definition isUnsealed (deal : DealInfo) : World -> (string + bool) * World :=
  IsUnsealed (SectorID deal) (Unpadded (Offset deal))
             (Unpadded (Length deal)).

Definition unsealSector (deal : DealInfo)
  : World -> (string + Reader) * World :=
  UnsealSector (SectorID deal) (Unpadded (Offset deal))
               (Unpadded (Length deal)).

(** The first [for] loop: [Some reader] when it returns from inside the
    loop, [None] when it runs to the end. *)
Fixpoint preferUnsealed (deals : list DealInfo) (w : World)
  : option Reader * World :=
  match deals with
  | [] => (None, w)
  | deal :: rest =>
      let (r, w1) := isUnsealed deal w in
      match r with
      | inl _ => preferUnsealed rest w1
      | inr false => preferUnsealed rest w1
      | inr true =>
          let (o, w2) := unsealSector deal w1 in
          match o with
          | inr reader => (Some reader, w2)
          | inl _ => preferUnsealed rest w2
          end
      end
  end.

(** The second [for] loop with its [lastErr] variable. *)
Fixpoint unsealFirst (deals : list DealInfo) (lastErr : string)
         (w : World) : (string + Reader) * World :=
  match deals with
  | [] => (inl lastErr, w)
  | deal :: rest =>
      let (o, w1) := unsealSector deal w in
      match o with
      | inr reader => (inr reader, w1)
      | inl err => unsealFirst rest err w1
      end
  end.

Definition ErrNoDeals : string := "no storage deals for Piece".
Definition ErrNoSectors : string := "no sectors found to unseal from".

Definition FetchUnsealedPiece (pieceCid : Cid) (w : World)
  : (string + Reader) * World :=
  let (pi, w0) := GetPieceInfo pieceCid w in
  match pi with
  | inl err => (inl ("failed to fetch pieceInfo: " ++ err)%string, w0)
  | inr pieceInfo =>
      if (List.length (Deals pieceInfo) <=? 0)%nat then (inl ErrNoDeals, w0)
      else
        match preferUnsealed (Deals pieceInfo) w0 with
        | (Some reader, w1) => (inr reader, w1)
        | (None, w1) => unsealFirst (Deals pieceInfo) ErrNoSectors w1
        end
  end.

(** The format of the first error has its [%w] right after "err=" and not
    after ": " at its end: [xerrors.Errorf] then prints the error into the
    message and wraps it as well, and the text of a wrapping error is its
    message, ": " and the text of what it wraps. *)
Definition GetUnpaddedCARSize (pieceCid : Cid) (w : World)
  : (string + Z) * World :=
  let (pi, w0) := GetPieceInfo pieceCid w in
  match pi with
  | inl err =>
      (inl ("failed to fetch pieceInfo, err=" ++ err ++ ": " ++ err)%string,
       w0)
  | inr pieceInfo =>
      match Deals pieceInfo with
      | [] => (inl "no storage deals for piece"%string, w0)
      | deal :: _ => (inr (Length deal), w0)
      end
  end.

End MountAPI.

(** The locator as the specification words it: two passes over the
    known locations, written as relations between the state before, the
    outcome and the state after. *)
Section Locator.

Variables World Reader : Type.
Variable GetPieceInfo : Cid -> World -> (string + PieceInfo) * World.
Variable IsUnsealed : Z -> Z -> Z -> World -> (string + bool) * World.
Variable UnsealSector : Z -> Z -> Z -> World -> (string + Reader) * World.

Local Abbreviation available := (isUnsealed World IsUnsealed).
Local Abbreviation open := (unsealSector World Reader UnsealSector).

(** Pass one: ask each location whether a copy is readily available;
    an error of that check is swallowed and the location skipped; a
    location answering yes is opened, and the first stream that opens
    ends the pass without a look at the remaining locations. *)
Inductive firstPass
  : list DealInfo -> World -> option Reader -> World -> Prop :=
| firstPass_done (w : World) :
    firstPass [] w None w
| firstPass_check_error (d : DealInfo) (rest : list DealInfo)
    (w w1 w' : World) (e : string) (o : option Reader) :
    available d w = (inl e, w1) ->
    firstPass rest w1 o w' ->
    firstPass (d :: rest) w o w'
| firstPass_not_available (d : DealInfo) (rest : list DealInfo)
    (w w1 w' : World) (o : option Reader) :
    available d w = (inr false, w1) ->
    firstPass rest w1 o w' ->
    firstPass (d :: rest) w o w'
| firstPass_opened (d : DealInfo) (rest : list DealInfo)
    (w w1 w2 : World) (r : Reader) :
    available d w = (inr true, w1) ->
    open d w1 = (inr r, w2) ->
    firstPass (d :: rest) w (Some r) w2
| firstPass_open_failed (d : DealInfo) (rest : list DealInfo)
    (w w1 w2 w' : World) (e : string) (o : option Reader) :
    available d w = (inr true, w1) ->
    open d w1 = (inl e, w2) ->
    firstPass rest w2 o w' ->
    firstPass (d :: rest) w o w'.

(** Pass two: materialize and open each location in order, return the
    first stream that opens, keep the last error seen. *)
Inductive secondPass
  : list DealInfo -> string -> World -> string + Reader -> World -> Prop :=
| secondPass_done (lastErr : string) (w : World) :
    secondPass [] lastErr w (inl lastErr) w
| secondPass_opened (d : DealInfo) (rest : list DealInfo)
    (lastErr : string) (w w1 : World) (r : Reader) :
    open d w = (inr r, w1) ->
    secondPass (d :: rest) lastErr w (inr r) w1
| secondPass_open_failed (d : DealInfo) (rest : list DealInfo)
    (lastErr e : string) (w w1 w' : World) (res : string + Reader) :
    open d w = (inl e, w1) ->
    secondPass rest e w1 res w' ->
    secondPass (d :: rest) lastErr w res w'.

Inductive fetchContent
  : Cid -> World -> string + Reader -> World -> Prop :=
| fetch_lookup_failed (c : Cid) (w w0 : World) (e : string) :
    GetPieceInfo c w = (inl e, w0) ->
    fetchContent c w (inl ("failed to fetch pieceInfo: " ++ e)%string) w0
| fetch_no_locations (c : Cid) (w w0 : World) (pi : PieceInfo) :
    GetPieceInfo c w = (inr pi, w0) ->
    Deals pi = [] ->
    fetchContent c w (inl ErrNoDeals) w0
| fetch_first_pass (c : Cid) (w w0 w1 : World) (pi : PieceInfo)
    (r : Reader) :
    GetPieceInfo c w = (inr pi, w0) ->
    Deals pi <> [] ->
    firstPass (Deals pi) w0 (Some r) w1 ->
    fetchContent c w (inr r) w1
| fetch_second_pass (c : Cid) (w w0 w1 w2 : World) (pi : PieceInfo)
    (res : string + Reader) :
    GetPieceInfo c w = (inr pi, w0) ->
    Deals pi <> [] ->
    firstPass (Deals pi) w0 None w1 ->
    secondPass (Deals pi) ErrNoSectors w1 res w2 ->
    fetchContent c w res w2.

(** Every location of the list fails to open, one after the other,
    the last of them with [e]. *)
Inductive allOpensFail : list DealInfo -> World -> string -> World -> Prop :=
| allOpensFail_last (d : DealInfo) (w w1 : World) (e : string) :
    open d w = (inl e, w1) ->
    allOpensFail [d] w e w1
| allOpensFail_more (d : DealInfo) (rest : list DealInfo)
    (w w1 w' : World) (e e' : string) :
    open d w = (inl e, w1) ->
    allOpensFail rest w1 e' w' ->
    allOpensFail (d :: rest) w e' w'.

End Locator.

(** Three locations, of which the third alone has a copy at hand. The
    state behind the interfaces is the log of the calls made on them. *)
Module ThreeLocations.

Inductive Call : Type :=
| AskUnsealed (sector : Z)
| Unseal (sector : Z).

Definition Trace : Type := list Call.

Definition one : DealInfo := mkDealInfo 1 1 0 1024.
Definition two : DealInfo := mkDealInfo 2 2 0 1024.
Definition three : DealInfo := mkDealInfo 3 3 0 1024.

Definition piece : Cid := [7].

Definition GetPieceInfo (c : Cid) (t : Trace)
  : (string + PieceInfo) * Trace :=
  (inr (mkPieceInfo c [one; two; three]), t).

Definition IsUnsealed (sector offset length : Z) (t : Trace)
  : (string + bool) * Trace :=
  (inr (sector =? 3), t ++ [AskUnsealed sector]).

Definition string_of_sector (sector : Z) : string :=
  if sector =? 1 then "1" else if sector =? 2 then "2" else "3".

(** [opens sector] tells whether unsealing that sector succeeds; the
    stream is named after the sector. *)
Definition UnsealSector (opens : Z -> bool) (sector offset length : Z)
           (t : Trace) : (string + Z) * Trace :=
  (if opens sector then inr sector
   else inl ("cannot unseal sector " ++ string_of_sector sector)%string,
   t ++ [Unseal sector]).

Definition fetch (opens : Z -> bool) : (string + Z) * Trace :=
  FetchUnsealedPiece Trace Z GetPieceInfo IsUnsealed (UnsealSector opens)
                     piece [].

End ThreeLocations.

(** The calls made on the provider node, with their answers, in the order
    in which they are made. *)
Inductive Event (Reader : Type) : Type :=
| Asked (sector offset length : Z) (answer : string + bool)
| Opened (sector offset length : Z) (outcome : string + Reader).
Arguments Asked {Reader} sector offset length answer.
Arguments Opened {Reader} sector offset length outcome.

Definition isAsked {Reader : Type} (e : Event Reader) : bool :=
  match e with Asked _ _ _ _ => true | Opened _ _ _ _ => false end.

Definition isOpened {Reader : Type} (e : Event Reader) : bool :=
  match e with Asked _ _ _ _ => false | Opened _ _ _ _ => true end.

(** An [UnsealSector] call that handed a reader over. *)
Definition gaveReader {Reader : Type} (e : Event Reader) : bool :=
  match e with Opened _ _ _ (inr _) => true | _ => false end.

(** The call was made on the sector of [deal], with its unpadded offset
    and length. *)
Definition onDeal {Reader : Type} (deal : DealInfo) (e : Event Reader) : Prop :=
  match e with
  | Asked sector offset length _ | Opened sector offset length _ =>
      sector = SectorID deal
      /\ offset = Unpadded (Offset deal)
      /\ length = Unpadded (Length deal)
  end.

(** The same interfaces, keeping a log of the calls on the provider node
    beside the state. *)
Section Logged.

Variables World Reader : Type.
Variable GetPieceInfo : Cid -> World -> (string + PieceInfo) * World.
Variable IsUnsealed : Z -> Z -> Z -> World -> (string + bool) * World.
Variable UnsealSector : Z -> Z -> Z -> World -> (string + Reader) * World.

Definition Logged : Type := (World * list (Event Reader))%type.

Definition loggedGetPieceInfo (c : Cid) (s : Logged)
  : (string + PieceInfo) * Logged :=
  let (r, w) := GetPieceInfo c (fst s) in (r, (w, snd s)).

Definition loggedIsUnsealed (sector offset length : Z) (s : Logged)
  : (string + bool) * Logged :=
  let (r, w) := IsUnsealed sector offset length (fst s) in
  (r, (w, snd s ++ [Asked sector offset length r])).

Definition loggedUnsealSector (sector offset length : Z) (s : Logged)
  : (string + Reader) * Logged :=
  let (r, w) := UnsealSector sector offset length (fst s) in
  (r, (w, snd s ++ [Opened sector offset length r])).

(** [FetchUnsealedPiece] run against the logging interfaces, from an
    empty log. *)
Definition FetchUnsealedPieceLogged (pieceCid : Cid) (w : World)
  : (string + Reader) * Logged :=
  FetchUnsealedPiece Logged Reader loggedGetPieceInfo loggedIsUnsealed
                     loggedUnsealSector pieceCid (w, []).

End Logged.

End DagStore.

(** ** The deal states of [retrievalmarket/types.go] *)

Module DealStates.
Import RetrievalMarket.

(** [datatransfer.ChannelID] *)
Record ChannelID : Type := mkChannelID {
  Initiator : PeerID;
  Responder : PeerID;
  TransferID : Z
}.

Record PaymentInfo : Type := mkPaymentInfo {
  PayCh : Address;
  Lane : Z
}.

Record ClientDealState : Type := mkClientDealState {
  ClientProposal : DealProposal;
  ClientStoreID : option Z;
  ClientChannelID : option ChannelID;
  LastPaymentRequested : bool;
  AllBlocksReceived : bool;
  TotalFunds : TokenAmount;
  ClientWallet : Address;
  MinerWallet : Address;
  ClientPaymentInfo : option PaymentInfo;
  ClientStatus : DealStatus;
  Sender : PeerID;
  TotalReceived : Z;
  ClientMessage : string;
  BytesPaidFor : Z;
  CurrentInterval : Z;
  PaymentRequested : TokenAmount;
  FundsSpent : TokenAmount;
  UnsealFundsPaid : TokenAmount;
  WaitMsgCID : option Cid;
  VoucherShortfall : TokenAmount;
  LegacyProtocol : bool
}.

(** [deal.Params.nextInterval(deal.CurrentInterval)] *)
Definition ClientDealState_NextInterval (fuel : nat) (deal : ClientDealState)
  : option Z :=
  nextInterval fuel (ProposalParams (ClientProposal deal))
               (CurrentInterval deal).

Record ProviderDealState : Type := mkProviderDealState {
  ProviderProposal : DealProposal;
  ProviderStoreID : Z;
  ProviderChannelID : option ChannelID;
  ProviderPieceInfo : option DagStore.PieceInfo;
  ProviderStatus : DealStatus;
  Receiver : PeerID;
  FundsReceived : TokenAmount;
  ProviderMessage : string
}.

(** [ProviderDealIdentifier{Receiver: pds.Receiver, DealID: pds.ID}] *)
Definition Identifier (pds : ProviderDealState) : ProviderDealIdentifier :=
  mkProviderDealIdentifier (Receiver pds) (ProposalID (ProviderProposal pds)).

End DealStates.

(** ** Vocabulary for the statements *)

Module Schedule.
Import RetrievalMarket.

(** The payment checkpoints as numbers, before any reduction to 64 bits:
    [boundary i d k] is the sum of the first [k] interval sizes
    [i, i + d, i + 2d, ...]. *)
Fixpoint boundary (interval increase : Z) (k : nat) : Z :=
  match k with
  | O => 0
  | S k' => boundary interval increase k' + (interval + Z.of_nat k' * increase)
  end.

(** The values of the loop variables [target] (or [nextInterval]) and
    [intervalSize] when the loop condition is evaluated for the
    [k]-th time, counting from 0. *)
Definition target_at (interval increase : Z) (k : nat) : Z :=
  Uint64.wrap (boundary interval increase k).

Definition size_at (interval increase : Z) (k : nat) : Z :=
  Uint64.wrap (interval + Z.of_nat k * increase).

(** A call returns [r] when some amount of fuel is enough for it. *)
Definition IntervalLowerBound_returns (p : Params) (cur r : Z) : Prop :=
  exists fuel, IntervalLowerBound fuel p cur = Some r.

Definition nextInterval_returns (p : Params) (cur r : Z) : Prop :=
  exists fuel, nextInterval fuel p cur = Some r.

Definition OutstandingBalance_returns (p : Params) (fundsReceived : TokenAmount)
           (sent : Z) (inFinalization : bool) (r : Big.Int) : Prop :=
  exists fuel, OutstandingBalance fuel p fundsReceived sent inFinalization = Ret r.

(** A call diverges when no amount of fuel is enough. *)
Definition IntervalLowerBound_diverges (p : Params) (cur : Z) : Prop :=
  forall fuel, IntervalLowerBound fuel p cur = None.

Definition nextInterval_diverges (p : Params) (cur : Z) : Prop :=
  forall fuel, nextInterval fuel p cur = None.

(** Params whose amounts are set (not nil). *)
Definition priced (sel : CborGenCompatibleNode) (piece : option Cid)
           (pricePerByte interval increase unsealPrice : Z) : Params :=
  mkParams sel piece (Some pricePerByte) interval increase (Some unsealPrice).

Definition NextInterval_returns (p : Params) (fundsReceived : TokenAmount)
           (r : Z) : Prop :=
  exists fuel, NextInterval fuel p fundsReceived = Ret r.

(** The three cases of the balance as one number: the unseal shortfall,
    nothing for a free deal, else what [bytes] bytes cost beyond the
    funds left after the unseal fee. *)
Definition balanceDue (unsealPrice pricePerByte funds bytes : Z) : Z :=
  if funds <? unsealPrice then unsealPrice - funds
  else if pricePerByte =? 0 then 0
       else Z.max 0 (bytes * pricePerByte - (funds - unsealPrice)).

End Schedule.

(** * Properties *)

(** ** Arithmetic of [uint64] *)

Module Uint64Facts.
Import Uint64.

Lemma modulus_pos : 0 < modulus.
Proof. reflexivity. Qed.

Lemma wrap_range (z : Z) : in_range (wrap z).
Proof. unfold in_range, wrap. apply Z.mod_pos_bound, modulus_pos. Qed.

Lemma wrap_small (z : Z) : in_range z -> wrap z = z.
Proof. unfold in_range, wrap. intros H. now apply Z.mod_small. Qed.

Lemma add_wrap_l (a b : Z) : add (wrap a) b = add a b.
Proof. unfold add, wrap. apply Zplus_mod_idemp_l. Qed.

Lemma add_wrap_r (a b : Z) : add a (wrap b) = add a b.
Proof. unfold add, wrap. apply Zplus_mod_idemp_r. Qed.

Lemma to_int64_small (x : Z) : x < 2 ^ 63 -> to_int64 x = x.
Proof.
  intros H. unfold to_int64.
  destruct (Z.ltb_spec x (2 ^ 63)); [reflexivity | lia].
Qed.

End Uint64Facts.

(** ** The interval loops *)

Module ScheduleFacts.
Import RetrievalMarket Schedule Uint64Facts.

Section Loops.

Variables interval increase cur : Z.

Local Abbreviation tgt := (target_at interval increase).
Local Abbreviation siz := (size_at interval increase).

Lemma size_step (k : nat) : Uint64.add (siz k) increase = siz (S k).
Proof.
  unfold size_at. rewrite add_wrap_l. unfold Uint64.add. f_equal. lia.
Qed.

Lemma target_step (k : nat) : Uint64.add (tgt k) (siz k) = tgt (S k).
Proof.
  unfold target_at, size_at. rewrite add_wrap_l, add_wrap_r.
  reflexivity.
Qed.

Lemma target_0 : tgt 0 = 0.
Proof. reflexivity. Qed.

Lemma target_range (k : nat) : Uint64.in_range (tgt k).
Proof. apply wrap_range. Qed.

(** Only the low 64 bits of [intervalSize] matter to either loop. *)
Lemma IntervalLowerBound_loop_wrap (fuel : nat) (sz lb t : Z) :
  IntervalLowerBound_loop fuel increase cur (Uint64.wrap sz) lb t
  = IntervalLowerBound_loop fuel increase cur sz lb t.
Proof.
  destruct fuel as [|fuel]; simpl; [reflexivity|].
  now rewrite !add_wrap_l, !add_wrap_r.
Qed.

Lemma nextInterval_loop_wrap (fuel : nat) (sz t : Z) :
  nextInterval_loop fuel increase cur (Uint64.wrap sz) t
  = nextInterval_loop fuel increase cur sz t.
Proof.
  destruct fuel as [|fuel]; simpl; [reflexivity|].
  now rewrite !add_wrap_l, !add_wrap_r.
Qed.

(** [n] iterations that all find [target <= currentInterval]. *)
Lemma IntervalLowerBound_loop_steps (n : nat) :
  forall (k fuel : nat) (lb : Z),
    (forall j, (k <= j < k + n)%nat -> tgt j <= cur) ->
    IntervalLowerBound_loop (n + fuel) increase cur (siz k) lb (tgt k)
    = IntervalLowerBound_loop fuel increase cur (siz (k + n))
        (match n with O => lb | S m => tgt (k + m) end) (tgt (k + n)).
Proof.
  induction n as [|n IH]; intros k fuel lb Hle.
  - now rewrite !Nat.add_0_r.
  - cbn [Nat.add IntervalLowerBound_loop].
    destruct (Z.leb_spec (tgt k) cur) as [_|Hgt].
    2:{ specialize (Hle k ltac:(lia)). lia. }
    rewrite size_step, target_step, IH.
    + replace (S k + n)%nat with (k + S n)%nat by lia.
      destruct n as [|m]; [now rewrite Nat.add_0_r|].
      now replace (S k + m)%nat with (k + S m)%nat by lia.
    + intros j Hj. apply Hle. lia.
Qed.

Lemma nextInterval_loop_steps (n : nat) :
  forall (k fuel : nat),
    (forall j, (k <= j < k + n)%nat -> tgt j <= cur) ->
    nextInterval_loop (n + fuel) increase cur (siz k) (tgt k)
    = nextInterval_loop fuel increase cur (siz (k + n)) (tgt (k + n)).
Proof.
  induction n as [|n IH]; intros k fuel Hle.
  - now rewrite !Nat.add_0_r.
  - cbn [Nat.add nextInterval_loop].
    destruct (Z.leb_spec (tgt k) cur) as [_|Hgt].
    2:{ specialize (Hle k ltac:(lia)). lia. }
    rewrite size_step, target_step, IH.
    + now replace (S k + n)%nat with (k + S n)%nat by lia.
    + intros j Hj. apply Hle. lia.
Qed.

Lemma loop_exit_lower (fuel : nat) (sz lb t : Z) :
  cur < t -> IntervalLowerBound_loop fuel increase cur sz lb t = Some lb.
Proof.
  intros H. destruct fuel; simpl;
    destruct (Z.leb_spec t cur); (reflexivity || lia).
Qed.

Lemma loop_exit_next (fuel : nat) (sz t : Z) :
  cur < t -> nextInterval_loop fuel increase cur sz t = Some t.
Proof.
  intros H. destruct fuel; simpl;
    destruct (Z.leb_spec t cur); (reflexivity || lia).
Qed.

Lemma loop_stuck_lower (sz lb t : Z) :
  t <= cur -> IntervalLowerBound_loop 0 increase cur sz lb t = None.
Proof.
  intros H. simpl. destruct (Z.leb_spec t cur); (reflexivity || lia).
Qed.

Lemma loop_stuck_next (sz t : Z) :
  t <= cur -> nextInterval_loop 0 increase cur sz t = None.
Proof.
  intros H. simpl. destruct (Z.leb_spec t cur); (reflexivity || lia).
Qed.

Lemma size_0 : Uint64.wrap interval = siz 0.
Proof. unfold size_at. f_equal. lia. Qed.

(** The first index whose target exceeds [cur] decides both results. *)
Lemma IntervalLowerBound_loop_first (n : nat) :
  (forall j, (j < n)%nat -> tgt j <= cur) ->
  cur < tgt n ->
  IntervalLowerBound_loop n increase cur interval 0 0
  = Some (tgt (Nat.pred n)).
Proof.
  intros Hle Hgt.
  rewrite <- IntervalLowerBound_loop_wrap, size_0, <- target_0.
  replace n with (n + 0)%nat at 1 by lia.
  rewrite IntervalLowerBound_loop_steps by (intros j Hj; apply Hle; lia).
  cbn [Nat.add]. rewrite loop_exit_lower by assumption.
  destruct n; reflexivity.
Qed.

Lemma nextInterval_loop_first (n : nat) :
  (forall j, (j < n)%nat -> tgt j <= cur) ->
  cur < tgt n ->
  nextInterval_loop n increase cur interval 0 = Some (tgt n).
Proof.
  intros Hle Hgt.
  rewrite <- nextInterval_loop_wrap, size_0, <- target_0.
  replace n with (n + 0)%nat at 1 by lia.
  rewrite nextInterval_loop_steps by (intros j Hj; apply Hle; lia).
  cbn [Nat.add]. now rewrite loop_exit_next.
Qed.

(** No target ever exceeds [cur]: no fuel is enough. *)
Lemma IntervalLowerBound_loop_never :
  (forall j, tgt j <= cur) ->
  forall fuel, IntervalLowerBound_loop fuel increase cur interval 0 0 = None.
Proof.
  intros Hle fuel.
  rewrite <- IntervalLowerBound_loop_wrap, size_0, <- target_0.
  replace fuel with (fuel + 0)%nat at 1 by lia.
  rewrite IntervalLowerBound_loop_steps by (intros j _; apply Hle).
  apply loop_stuck_lower, Hle.
Qed.

Lemma nextInterval_loop_never :
  (forall j, tgt j <= cur) ->
  forall fuel, nextInterval_loop fuel increase cur interval 0 = None.
Proof.
  intros Hle fuel.
  rewrite <- nextInterval_loop_wrap, size_0, <- target_0.
  replace fuel with (fuel + 0)%nat at 1 by lia.
  rewrite nextInterval_loop_steps by (intros j _; apply Hle).
  apply loop_stuck_next, Hle.
Qed.

(** What a returned value tells about the targets. *)
Lemma IntervalLowerBound_loop_inv (fuel : nat) :
  forall (k : nat) (lb r : Z),
    IntervalLowerBound_loop fuel increase cur (siz k) lb (tgt k) = Some r ->
    exists n, (k <= n)%nat /\ cur < tgt n
              /\ (forall j, (k <= j < n)%nat -> tgt j <= cur)
              /\ r = (if (n =? k)%nat then lb else tgt (Nat.pred n)).
Proof.
  induction fuel as [|fuel IH]; intros k lb r; simpl;
    destruct (Z.leb_spec (tgt k) cur) as [Hle|Hgt]; intros H.
  - discriminate.
  - injection H as <-. exists k. rewrite Nat.eqb_refl.
    repeat split; try lia.
  - rewrite size_step, target_step in H.
    destruct (IH _ _ _ H) as (n & Hn & Hgt & Hbelow & Hr).
    exists n. repeat split; try lia.
    + intros j Hj. destruct (Nat.eq_dec j k) as [->|Hne];
        [assumption | apply Hbelow; lia].
    + destruct (Nat.eqb_spec n k); [lia|].
      destruct (Nat.eqb_spec n (S k)) as [->|]; [|assumption].
      now rewrite Hr.
  - injection H as <-. exists k. rewrite Nat.eqb_refl.
    repeat split; try lia.
Qed.

Lemma nextInterval_loop_inv (fuel : nat) :
  forall (k : nat) (r : Z),
    nextInterval_loop fuel increase cur (siz k) (tgt k) = Some r ->
    exists n, (k <= n)%nat /\ cur < tgt n
              /\ (forall j, (k <= j < n)%nat -> tgt j <= cur)
              /\ r = tgt n.
Proof.
  induction fuel as [|fuel IH]; intros k r; simpl;
    destruct (Z.leb_spec (tgt k) cur) as [Hle|Hgt]; intros H.
  - discriminate.
  - injection H as <-. exists k. repeat split; try lia.
  - rewrite size_step, target_step in H.
    destruct (IH _ _ H) as (n & Hn & Hgt & Hbelow & Hr).
    exists n. repeat split; try lia.
    intros j Hj. destruct (Nat.eq_dec j k) as [->|Hne];
      [assumption | apply Hbelow; lia].
  - injection H as <-. exists k. repeat split; try lia.
Qed.

Lemma IntervalLowerBound_loop_some (fuel : nat) (r : Z) :
  IntervalLowerBound_loop fuel increase cur interval 0 0 = Some r ->
  exists n, cur < tgt n /\ (forall j, (j < n)%nat -> tgt j <= cur)
            /\ r = tgt (Nat.pred n).
Proof.
  rewrite <- IntervalLowerBound_loop_wrap, size_0, <- target_0.
  intros H. apply IntervalLowerBound_loop_inv in H.
  destruct H as (n & _ & Hgt & Hbelow & Hr).
  exists n. repeat split; [assumption | intros; apply Hbelow; lia |].
  destruct n; assumption.
Qed.

Lemma nextInterval_loop_some (fuel : nat) (r : Z) :
  nextInterval_loop fuel increase cur interval 0 = Some r ->
  exists n, cur < tgt n /\ (forall j, (j < n)%nat -> tgt j <= cur)
            /\ r = tgt n.
Proof.
  rewrite <- nextInterval_loop_wrap, size_0, <- target_0.
  intros H. apply nextInterval_loop_inv in H.
  destruct H as (n & _ & Hgt & Hbelow & Hr).
  exists n. repeat split; [assumption | intros; apply Hbelow; lia | assumption].
Qed.

Lemma scan_targets (m : nat) :
  (forall j, (j < m)%nat -> tgt j <= cur)
  \/ exists j, (j < m)%nat /\ cur < tgt j.
Proof.
  induction m as [|m [Hall|(j & Hj & Hgt)]].
  - left. intros j Hj. lia.
  - destruct (Z_lt_le_dec cur (tgt m)) as [Hgt|Hle].
    + right. exists m. split; [lia | assumption].
    + left. intros j Hj. destruct (Nat.eq_dec j m) as [->|];
        [assumption | apply Hall; lia].
  - right. exists j. split; [lia | assumption].
Qed.

(** Among the indices whose target exceeds [cur] there is a first. *)
Lemma first_above (m : nat) :
  cur < tgt m ->
  exists n, (n <= m)%nat /\ cur < tgt n
            /\ forall j, (j < n)%nat -> tgt j <= cur.
Proof.
  induction m as [m IH] using lt_wf_ind. intros Hm.
  destruct (scan_targets m) as [Hall|(j & Hj & Hgt)].
  - exists m. repeat split; [lia | assumption | exact Hall].
  - destruct (IH j Hj Hgt) as (n & Hn & Hgt' & Hbelow).
    exists n. repeat split; [lia | assumption | exact Hbelow].
Qed.

End Loops.

(** Twice the [k]-th checkpoint, in closed form. *)
Lemma boundary_closed (interval increase : Z) (k : nat) :
  2 * boundary interval increase k
  = 2 * Z.of_nat k * interval + Z.of_nat k * (Z.of_nat k - 1) * increase.
Proof.
  induction k as [|k IH]; [reflexivity|].
  cbn [boundary]. rewrite Nat2Z.inj_succ. nia.
Qed.

Section NoWrap.

Variables interval increase : Z.
Hypothesis interval_nonneg : 0 <= interval.
Hypothesis increase_nonneg : 0 <= increase.

Local Abbreviation bnd := (boundary interval increase).
Local Abbreviation tgt := (target_at interval increase).

Lemma boundary_step (k : nat) : bnd k <= bnd (S k).
Proof. cbn [boundary]. nia. Qed.

Lemma boundary_step_strict (k : nat) : 0 < interval -> bnd k < bnd (S k).
Proof. intros H. cbn [boundary]. nia. Qed.

Lemma boundary_mono (j k : nat) : (j <= k)%nat -> bnd j <= bnd k.
Proof.
  induction 1 as [|k _ IH]; [lia|].
  pose proof (boundary_step k). lia.
Qed.

Lemma boundary_nonneg (k : nat) : 0 <= bnd k.
Proof. apply (boundary_mono 0 k). lia. Qed.

Lemma target_exact (k : nat) : bnd k < Uint64.modulus -> tgt k = bnd k.
Proof.
  intros H. apply wrap_small. split; [apply boundary_nonneg | exact H].
Qed.

(** When a checkpoint beyond [cur] fits in 64 bits, the loops run
    through the checkpoints as numbers and stop at the first one
    beyond [cur]. *)
Lemma checkpoints (cur : Z) (K : nat) :
  0 <= cur ->
  cur < bnd K < Uint64.modulus ->
  exists n,
    (1 <= n <= K)%nat
    /\ (forall j, (j < n)%nat -> bnd j <= cur)
    /\ cur < bnd n
    /\ IntervalLowerBound_loop n increase cur interval 0 0
       = Some (bnd (Nat.pred n))
    /\ nextInterval_loop n increase cur interval 0 = Some (bnd n).
Proof.
  intros Hcur [Hgt Hfit].
  assert (Hexact : forall j, (j <= K)%nat -> tgt j = bnd j).
  { intros j Hj. apply target_exact.
    pose proof (boundary_mono j K Hj). lia. }
  destruct (first_above interval increase cur K) as (n & Hn & Hgt' & Hbelow).
  { now rewrite Hexact. }
  assert (1 <= n)%nat.
  { destruct n; [|lia]. rewrite target_0 in Hgt'. lia. }
  exists n. repeat split; try lia.
  - intros j Hj. rewrite <- Hexact by lia. now apply Hbelow.
  - now rewrite <- Hexact.
  - rewrite <- Hexact by lia.
    now apply IntervalLowerBound_loop_first.
  - rewrite <- Hexact by lia.
    now apply nextInterval_loop_first.
Qed.

End NoWrap.

(** *** Results are unique and bounded *)

Lemma first_unique (interval increase cur : Z) (n m : nat) :
  cur < target_at interval increase n ->
  (forall j, (j < n)%nat -> target_at interval increase j <= cur) ->
  cur < target_at interval increase m ->
  (forall j, (j < m)%nat -> target_at interval increase j <= cur) ->
  n = m.
Proof.
  intros Hn Hbn Hm Hbm.
  destruct (Nat.lt_trichotomy n m) as [Hlt|[Heq|Hlt]]; [|assumption|].
  - specialize (Hbm n Hlt). lia.
  - specialize (Hbn m Hlt). lia.
Qed.

Lemma IntervalLowerBound_unique (p : Params) (cur : Z) (fuel fuel' : nat)
      (r r' : Z) :
  IntervalLowerBound fuel p cur = Some r ->
  IntervalLowerBound fuel' p cur = Some r' ->
  r = r'.
Proof.
  intros H H'.
  apply IntervalLowerBound_loop_some in H, H'.
  destruct H as (n & Hn & Hbn & ->), H' as (m & Hm & Hbm & ->).
  now rewrite (first_unique _ _ _ n m Hn Hbn Hm Hbm).
Qed.

Lemma nextInterval_unique (p : Params) (cur : Z) (fuel fuel' : nat)
      (r r' : Z) :
  nextInterval fuel p cur = Some r ->
  nextInterval fuel' p cur = Some r' ->
  r = r'.
Proof.
  intros H H'.
  apply nextInterval_loop_some in H, H'.
  destruct H as (n & Hn & Hbn & ->), H' as (m & Hm & Hbm & ->).
  now rewrite (first_unique _ _ _ n m Hn Hbn Hm Hbm).
Qed.

(** The lower bound is a [uint64] that does not exceed its argument. *)
Lemma IntervalLowerBound_bounds (p : Params) (cur : Z) (fuel : nat) (r : Z) :
  0 <= cur ->
  IntervalLowerBound fuel p cur = Some r ->
  0 <= r <= cur.
Proof.
  intros Hcur H. apply IntervalLowerBound_loop_some in H.
  destruct H as (n & Hn & Hbn & ->).
  destruct n as [|n].
  - cbn [Nat.pred]. rewrite target_0. lia.
  - cbn [Nat.pred].
    pose proof (target_range (PaymentInterval p)
                  (PaymentIntervalIncrease p) n) as Hr.
    specialize (Hbn n ltac:(lia)). unfold Uint64.in_range in Hr. lia.
Qed.

(** The next interval is a [uint64] above its argument. *)
Lemma nextInterval_bounds (p : Params) (cur : Z) (fuel : nat) (r : Z) :
  nextInterval fuel p cur = Some r ->
  cur < r < Uint64.modulus.
Proof.
  intros H. apply nextInterval_loop_some in H.
  destruct H as (n & Hn & Hbn & ->).
  pose proof (target_range (PaymentInterval p)
                (PaymentIntervalIncrease p) n) as Hr.
  unfold Uint64.in_range in Hr. lia.
Qed.

(** Wherever [nextInterval] returns it returns more than its argument,
    and a larger argument never gets a smaller result: the targets below
    the first one above [y] are all at most [y]. *)
Lemma nextInterval_ordered (p : Params) (x y nx ny : Z) :
  x <= y ->
  nextInterval_returns p x nx ->
  nextInterval_returns p y ny ->
  nx <= ny /\ x < nx /\ y < ny.
Proof.
  intros Hxy [fx Hx] [fy Hy].
  apply nextInterval_loop_some in Hx, Hy.
  destruct Hx as (n & Hn & Hbn & ->), Hy as (m & Hm & Hbm & ->).
  repeat split; try assumption.
  destruct (Nat.lt_trichotomy n m) as [Hlt|[->|Hlt]].
  - specialize (Hbm n Hlt). lia.
  - lia.
  - specialize (Hbn m Hlt). lia.
Qed.

(** *** Termination *)

Lemma returns_iff_target_above (p : Params) (cur : Z) :
  ((exists r, IntervalLowerBound_returns p cur r)
   <-> exists k, cur < target_at (PaymentInterval p) (PaymentIntervalIncrease p) k)
  /\ ((exists r, nextInterval_returns p cur r)
      <-> exists k, cur < target_at (PaymentInterval p) (PaymentIntervalIncrease p) k).
Proof.
  split; split.
  - intros (r & fuel & H). apply IntervalLowerBound_loop_some in H.
    destruct H as (n & Hgt & _). now exists n.
  - intros (k & Hk). apply first_above in Hk.
    destruct Hk as (n & _ & Hgt & Hbelow).
    eexists. exists n. now apply IntervalLowerBound_loop_first.
  - intros (r & fuel & H). apply nextInterval_loop_some in H.
    destruct H as (n & Hgt & _). now exists n.
  - intros (k & Hk). apply first_above in Hk.
    destruct Hk as (n & _ & Hgt & Hbelow).
    eexists. exists n. now apply nextInterval_loop_first.
Qed.

Lemma diverges_at_max (p : Params) :
  IntervalLowerBound_diverges p Uint64.max
  /\ nextInterval_diverges p Uint64.max.
Proof.
  assert (H : forall j, target_at (PaymentInterval p)
                          (PaymentIntervalIncrease p) j <= Uint64.max).
  { intros j. pose proof (target_range (PaymentInterval p)
                            (PaymentIntervalIncrease p) j) as Hr.
    unfold Uint64.in_range, Uint64.max in *. lia. }
  split; intros fuel.
  - now apply IntervalLowerBound_loop_never.
  - now apply nextInterval_loop_never.
Qed.

Lemma diverges_when_both_zero (p : Params) (cur : Z) :
  0 <= cur ->
  PaymentInterval p = 0 ->
  PaymentIntervalIncrease p = 0 ->
  IntervalLowerBound_diverges p cur /\ nextInterval_diverges p cur.
Proof.
  intros Hcur Hi Hd.
  assert (H : forall j, target_at (PaymentInterval p)
                          (PaymentIntervalIncrease p) j <= cur).
  { intros j. rewrite Hi, Hd. unfold target_at.
    replace (boundary 0 0 j) with 0; [exact Hcur|].
    induction j as [|j IH]; [reflexivity|]. cbn [boundary]. lia. }
  split; intros fuel.
  - now apply IntervalLowerBound_loop_never.
  - now apply nextInterval_loop_never.
Qed.

(** C9, as amended. With both [PaymentInterval] and
    [PaymentIntervalIncrease] zero, neither loop terminates on any
    [currentInterval >= 0]. With one of them positive, both loops
    terminate on every [currentInterval >= 0] for which some checkpoint
    beyond it, computed without wrap-around, is below 2^64. In general
    either loop terminates exactly when some checkpoint reduced modulo
    2^64 exceeds [currentInterval]. *)
Theorem interval_loops_termination (p : Params) (cur : Z) :
  0 <= cur ->
  (PaymentInterval p = 0 -> PaymentIntervalIncrease p = 0 ->
   IntervalLowerBound_diverges p cur /\ nextInterval_diverges p cur)
  /\ (0 <= PaymentInterval p -> 0 <= PaymentIntervalIncrease p ->
      0 < PaymentInterval p \/ 0 < PaymentIntervalIncrease p ->
      (exists k, cur < boundary (PaymentInterval p)
                                (PaymentIntervalIncrease p) k
                     < Uint64.modulus) ->
      (exists r, IntervalLowerBound_returns p cur r)
      /\ (exists r, nextInterval_returns p cur r))
  /\ ((exists r, IntervalLowerBound_returns p cur r)
      <-> exists k, cur < target_at (PaymentInterval p)
                                    (PaymentIntervalIncrease p) k)
  /\ ((exists r, nextInterval_returns p cur r)
      <-> exists k, cur < target_at (PaymentInterval p)
                                    (PaymentIntervalIncrease p) k).
Proof.
  intros Hcur. split; [|split].
  - now apply diverges_when_both_zero.
  - intros Hi Hd _ (K & HK).
    destruct (checkpoints _ _ Hi Hd cur K Hcur HK)
      as (n & _ & _ & _ & Hlow & Hnext).
    split; eexists; exists n; eassumption.
  - apply returns_iff_target_above.
Qed.

(** With an interval of 2^63 and no increase the targets alternate
    between 0 and 2^63. *)
Lemma half_range_targets (j : nat) : target_at (2 ^ 63) 0 j <= 2 ^ 63.
Proof.
  unfold target_at, Uint64.wrap, Uint64.modulus.
  assert (Hb : boundary (2 ^ 63) 0 j = Z.of_nat j * 2 ^ 63).
  { pose proof (boundary_closed (2 ^ 63) 0 j). lia. }
  rewrite Hb.
  rewrite (Z.div_mod (Z.of_nat j) 2) at 1 by lia.
  replace ((2 * (Z.of_nat j / 2) + Z.of_nat j mod 2) * 2 ^ 63)
    with (Z.of_nat j mod 2 * 2 ^ 63 + Z.of_nat j / 2 * 2 ^ 64) by lia.
  rewrite Z_mod_plus_full.
  pose proof (Z.mod_pos_bound (Z.of_nat j) 2 eq_refl) as Hr.
  rewrite Z.mod_small by lia. nia.
Qed.

(** [PaymentInterval = 1], [PaymentIntervalIncrease = 0] and
    [currentInterval = 2^64 - 1]: the interval is positive and yet no
    [uint64] target is ever above [currentInterval]. The same with
    [PaymentInterval = 2^63] and [currentInterval = 2^63]: the target
    wraps back to 0 before it gets above. *)
Lemma positive_interval_diverges_at_max :
  let p := priced (mkCborGenCompatibleNode None) None 1 1 0 0 in
  let q := priced (mkCborGenCompatibleNode None) None 1 (2 ^ 63) 0 0 in
  0 < PaymentInterval p
  /\ 0 <= Uint64.max
  /\ IntervalLowerBound_diverges p Uint64.max
  /\ nextInterval_diverges p Uint64.max
  /\ 0 < PaymentInterval q
  /\ 0 <= 2 ^ 63
  /\ IntervalLowerBound_diverges q (2 ^ 63)
  /\ nextInterval_diverges q (2 ^ 63).
Proof.
  intros p q. split; [reflexivity|]. split; [discriminate|].
  split; [apply diverges_at_max|]. split; [apply diverges_at_max|].
  split; [reflexivity|]. split; [discriminate|].
  split; intros fuel.
  - apply IntervalLowerBound_loop_never, half_range_targets.
  - apply nextInterval_loop_never, half_range_targets.
Qed.

Lemma interval_loops_termination_witness :
  let p := priced (mkCborGenCompatibleNode None) None 10 100 50 0 in
  (exists r, IntervalLowerBound_returns p 150 r)
  /\ (exists r, nextInterval_returns p 150 r).
Proof.
  intros p.
  destruct (interval_loops_termination p 150) as (_ & H & _).
  - discriminate.
  - apply H.
    + discriminate.
    + discriminate.
    + left. reflexivity.
    + exists 2%nat. split; reflexivity.
Defined.

(** *** Monotonicity *)

(** C5, as amended. Wherever [nextInterval] returns, its result is above
    its argument and is monotonically non-decreasing in it. For
    [PaymentInterval > 0] and [0 <= x <= y], when some checkpoint beyond
    [y], computed without wrap-around, is below 2^64: [IntervalLowerBound]
    and [nextInterval] return on [x] and on [y], and their results are
    ordered as [x] and [y] are. *)
Theorem interval_functions_monotone (p : Params) (x y : Z) :
  (forall nx ny,
      x <= y ->
      nextInterval_returns p x nx ->
      nextInterval_returns p y ny ->
      nx <= ny /\ x < nx /\ y < ny)
  /\ (forall K : nat,
        0 < PaymentInterval p ->
        0 <= PaymentIntervalIncrease p ->
        0 <= x <= y ->
        y < boundary (PaymentInterval p) (PaymentIntervalIncrease p) K
          < Uint64.modulus ->
        exists lx ly nx ny,
          IntervalLowerBound_returns p x lx
          /\ IntervalLowerBound_returns p y ly
          /\ nextInterval_returns p x nx
          /\ nextInterval_returns p y ny
          /\ lx <= ly /\ nx <= ny /\ x < nx /\ y < ny).
Proof.
  split; [intros nx ny; apply nextInterval_ordered|].
  intros K Hi Hd Hxy HK.
  assert (Hi' : 0 <= PaymentInterval p) by lia.
  destruct (checkpoints _ _ Hi' Hd x K) as (n & Hn & Hbx & Hgx & Hlx & Hnx);
    [lia | lia |].
  destruct (checkpoints _ _ Hi' Hd y K) as (m & Hm & Hby & Hgy & Hly & Hny);
    [lia | lia |].
  assert (Hnm : (n <= m)%nat).
  { destruct (Nat.le_gt_cases n m) as [|Hlt]; [assumption|].
    specialize (Hbx m Hlt). lia. }
  exists (boundary (PaymentInterval p) (PaymentIntervalIncrease p) (Nat.pred n)),
         (boundary (PaymentInterval p) (PaymentIntervalIncrease p) (Nat.pred m)),
         (boundary (PaymentInterval p) (PaymentIntervalIncrease p) n),
         (boundary (PaymentInterval p) (PaymentIntervalIncrease p) m).
  repeat split; try assumption; try (eexists; eassumption).
  - apply boundary_mono; lia.
  - apply boundary_mono; lia.
Qed.

Lemma interval_functions_monotone_witness :
  let p := priced (mkCborGenCompatibleNode None) None 10 100 50 0 in
  (100 <= 250 /\ 99 < 100 /\ 150 < 250)
  /\ exists lx ly nx ny,
      IntervalLowerBound_returns p 99 lx
      /\ IntervalLowerBound_returns p 150 ly
      /\ nextInterval_returns p 99 nx
      /\ nextInterval_returns p 150 ny
      /\ lx <= ly /\ nx <= ny /\ 99 < nx /\ 150 < ny.
Proof.
  intros p.
  destruct (interval_functions_monotone p 99 150) as [ordered monotone].
  split.
  - apply ordered.
    + discriminate.
    + exists 1%nat. reflexivity.
    + exists 2%nat. reflexivity.
  - apply (monotone 2%nat).
    + reflexivity.
    + discriminate.
    + split; discriminate.
    + split; reflexivity.
Defined.

(** [PaymentInterval = 5] and [PaymentIntervalIncrease =
    0x5555555555555551]: the targets are 0, 5, 0x555555555555555B, 2
    (wrapped) and 2^64 - 6, so the lower bound of 5 is 5 and the lower
    bound of the larger 0x555555555555555B is 2; and with
    [PaymentInterval = 1], [nextInterval] does not return on 2^64 - 1. *)
Lemma lower_bound_decreases_on_wrap :
  let p := priced (mkCborGenCompatibleNode None) None 1 5 0x5555555555555551 0 in
  let q := priced (mkCborGenCompatibleNode None) None 1 1 0 0 in
  0 < PaymentInterval p
  /\ Uint64.in_range (PaymentIntervalIncrease p)
  /\ 5 <= 0x555555555555555B < Uint64.modulus
  /\ IntervalLowerBound 2 p 5 = Some 5
  /\ IntervalLowerBound 4 p 0x555555555555555B = Some 2
  /\ 0 < PaymentInterval q
  /\ nextInterval_diverges q Uint64.max.
Proof.
  intros p q.
  split; [reflexivity|].
  split; [split; [discriminate | reflexivity]|].
  split; [split; [discriminate | reflexivity]|].
  split; [reflexivity|].
  split; [reflexivity|].
  split; [reflexivity|].
  apply diverges_at_max.
Qed.

End ScheduleFacts.

(** ** The outstanding balance *)

Module BalanceFacts.
Import RetrievalMarket Schedule Uint64Facts ScheduleFacts.

Section Priced.

Variables (sel : CborGenCompatibleNode) (piece : option Cid).
Variables pricePerByte interval increase unsealPrice : Z.

Local Abbreviation p :=
  (priced sel piece pricePerByte interval increase unsealPrice).

(** The unseal fee is not covered: the shortfall is owed, whatever the
    rest of the state. *)
Lemma unseal_shortfall (fuel : nat) (funds sent : Z) (fin : bool) :
  funds < unsealPrice ->
  OutstandingBalance fuel p (Some funds) sent fin
  = Ret (Some (unsealPrice - funds)).
Proof.
  intros H. unfold OutstandingBalance, Big.LessThan. cbn.
  rewrite (proj2 (Z.compare_lt_iff funds unsealPrice) H). reflexivity.
Qed.

Lemma not_less (a b : Z) :
  b <= a -> match a ?= b with Lt => true | _ => false end = false.
Proof.
  intros H. destruct (Z.compare_spec a b); (reflexivity || lia).
Qed.

(** The unseal fee is covered and the retrieval is free. *)
Lemma free_deal (fuel : nat) (funds sent : Z) (fin : bool) :
  unsealPrice <= funds ->
  pricePerByte = 0 ->
  OutstandingBalance fuel p (Some funds) sent fin = Ret (Some 0).
Proof.
  intros H H0. unfold OutstandingBalance, Big.LessThan. cbn.
  rewrite (not_less _ _ H). cbn. rewrite H0. reflexivity.
Qed.

(** The unseal fee is covered, the retrieval has a price and the loop
    of [IntervalLowerBound] has returned [lb]. *)
Lemma paid_deal (fuel : nat) (funds sent lb : Z) (fin : bool) :
  unsealPrice <= funds ->
  pricePerByte <> 0 ->
  IntervalLowerBound fuel p sent = Some lb ->
  OutstandingBalance fuel p (Some funds) sent fin
  = Ret (Some (Z.max 0
                 (Uint64.to_int64 (if fin then sent else lb) * pricePerByte
                  - (funds - unsealPrice)))).
Proof.
  intros H H0 Hlb. unfold OutstandingBalance, Big.LessThan. cbn.
  rewrite (not_less _ _ H). cbn.
  destruct (Z.eqb_spec pricePerByte 0) as [|_]; [contradiction|].
  rewrite Hlb. cbn.
  set (owed := _ - (funds - unsealPrice)). clearbody owed.
  unfold Big.Zero, Big.NewInt.
  destruct (Z.compare_spec owed 0); do 2 f_equal; lia.
Qed.

(** The price is set and the loop of [IntervalLowerBound] is still
    running when the fuel ends. *)
Lemma paid_deal_no_fuel (fuel : nat) (funds sent : Z) (fin : bool) :
  unsealPrice <= funds ->
  pricePerByte <> 0 ->
  IntervalLowerBound fuel p sent = None ->
  OutstandingBalance fuel p (Some funds) sent fin = OutOfFuel.
Proof.
  intros H H0 Hnone. unfold OutstandingBalance, Big.LessThan. cbn.
  rewrite (not_less _ _ H). cbn.
  destruct (Z.eqb_spec pricePerByte 0) as [|_]; [contradiction|].
  rewrite Hnone. reflexivity.
Qed.

(** No fuel is enough when the price is set and the loop diverges. *)
Lemma paid_deal_diverges (funds sent : Z) (fin : bool) :
  unsealPrice <= funds ->
  pricePerByte <> 0 ->
  IntervalLowerBound_diverges p sent ->
  forall fuel, OutstandingBalance fuel p (Some funds) sent fin = OutOfFuel.
Proof.
  intros H H0 Hdiv fuel. now apply paid_deal_no_fuel.
Qed.

(** Whatever is returned is an amount that is set and not negative. *)
Lemma balance_nonneg (fuel : nat) (funds sent : Z) (fin : bool) (r : Big.Int) :
  OutstandingBalance fuel p (Some funds) sent fin = Ret r ->
  exists v, r = Some v /\ 0 <= v.
Proof.
  destruct (Z_lt_le_dec funds unsealPrice) as [Hlt|Hle].
  - rewrite unseal_shortfall by assumption.
    intros [= <-]. eexists. split; [reflexivity | lia].
  - destruct (Z.eq_dec pricePerByte 0) as [H0|H0].
    + rewrite free_deal by assumption.
      intros [= <-]. eexists. split; [reflexivity | lia].
    + destruct (IntervalLowerBound fuel p sent) as [lb|] eqn:Hlb.
      * rewrite (paid_deal _ _ _ lb fin Hle H0 Hlb).
        intros [= <-]. eexists. split; [reflexivity | lia].
      * rewrite paid_deal_no_fuel by assumption. discriminate.
Qed.

End Priced.

Lemma OutstandingBalance_unique (p : Params) (funds : TokenAmount)
      (sent : Z) (fin : bool) (fuel fuel' : nat) (r r' : Big.Int) :
  OutstandingBalance fuel p funds sent fin = Ret r ->
  OutstandingBalance fuel' p funds sent fin = Ret r' ->
  r = r'.
Proof.
  unfold OutstandingBalance.
  destruct (Big.LessThan funds (UnsealPrice p)) as [[|]| |]; cbn;
    try congruence.
  destruct (Big.IsZero (PricePerByte p)) as [[|]| |]; cbn; try congruence.
  destruct (Big.Sub funds (UnsealPrice p)) as [t| |]; cbn; try congruence.
  destruct (IntervalLowerBound fuel p sent) as [lb|] eqn:E; cbn;
    try congruence.
  destruct (IntervalLowerBound fuel' p sent) as [lb'|] eqn:E'; cbn;
    try congruence.
  rewrite (IntervalLowerBound_unique _ _ _ _ _ _ E E'). congruence.
Qed.

(** C1, as amended. For Params and funds whose amounts are set:
    [OutstandingBalance] returns [unsealPrice - fundsReceived] when
    [fundsReceived < unsealPrice]; returns 0 when
    [fundsReceived >= unsealPrice] and the price per byte is zero; and
    otherwise, when [sent < 2^63] and [IntervalLowerBound(sent)] returns,
    it returns [max(0, minimumBytesToPay * pricePerByte -
    (fundsReceived - unsealPrice))] with [minimumBytesToPay] the lower
    bound outside finalization and [sent] in finalization. With
    price 10, interval 100, increase 50, unseal price 0, funds 600 and
    150 bytes sent it returns 400 outside and 900 in finalization. *)
Theorem OutstandingBalance_cases
        (sel : CborGenCompatibleNode) (piece : option Cid)
        (pricePerByte interval increase unsealPrice funds sent : Z)
        (fin : bool) :
  let p := priced sel piece pricePerByte interval increase unsealPrice in
  (funds < unsealPrice ->
   forall fuel, OutstandingBalance fuel p (Some funds) sent fin
                = Ret (Some (unsealPrice - funds)))
  /\ (unsealPrice <= funds -> pricePerByte = 0 ->
      forall fuel, OutstandingBalance fuel p (Some funds) sent fin
                   = Ret (Some 0))
  /\ (unsealPrice <= funds -> pricePerByte <> 0 ->
      0 <= sent < 2 ^ 63 ->
      forall lb, IntervalLowerBound_returns p sent lb ->
        OutstandingBalance_returns p (Some funds) sent fin
          (Some (Z.max 0 ((if fin then sent else lb) * pricePerByte
                          - (funds - unsealPrice)))))
  /\ (let ex := priced sel piece 10 100 50 0 in
      OutstandingBalance_returns ex (Some 600) 150 false (Some 400)
      /\ OutstandingBalance_returns ex (Some 600) 150 true (Some 900)).
Proof.
  intros p. subst p. split; [|split; [|split]].
  - intros H fuel. now apply unseal_shortfall.
  - intros H H0 fuel. now apply free_deal.
  - intros H H0 Hsent lb [fuel Hlb]. exists fuel.
    pose proof (IntervalLowerBound_bounds _ _ _ _ (proj1 Hsent) Hlb) as Hb.
    rewrite (paid_deal _ _ _ _ _ _ _ _ _ lb fin H H0 Hlb).
    rewrite to_int64_small; [reflexivity|].
    destruct fin; lia.
  - split; exists 2%nat; reflexivity.
Qed.

Lemma OutstandingBalance_cases_witness :
  let sel := mkCborGenCompatibleNode None in
  OutstandingBalance 0 (priced sel None 10 100 50 500) (Some 200) 150 false
  = Ret (Some 300)
  /\ OutstandingBalance 0 (priced sel None 0 100 50 500) (Some 600) 150 false
     = Ret (Some 0)
  /\ OutstandingBalance_returns (priced sel None 10 100 50 0) (Some 600)
       150 false (Some 400).
Proof.
  intros sel. split; [|split].
  - apply (OutstandingBalance_cases sel None 10 100 50 500 200 150 false).
    reflexivity.
  - apply (OutstandingBalance_cases sel None 0 100 50 500 600 150 false).
    + discriminate.
    + reflexivity.
  - apply (OutstandingBalance_cases sel None 10 100 50 0 600 150 false)
      with (lb := 100).
    + discriminate.
    + discriminate.
    + split; [discriminate | reflexivity].
    + exists 2%nat. reflexivity.
Defined.

(** Price 1, interval 2^64 - 1, nothing paid, 2^63 bytes sent, in
    finalization: [int64(sent)] is -2^63, so the call returns 0 and not
    [max(0, sent * 1 - 0) = 2^63]. Price 1, interval and increase 0,
    nothing sent, in finalization: the call never returns, where the
    formula has 0. *)
Lemma balance_formula_fails :
  let sel := mkCborGenCompatibleNode None in
  let p := priced sel None 1 (2 ^ 64 - 1) 0 0 in
  let q := priced sel None 1 0 0 0 in
  Uint64.in_range (2 ^ 63)
  /\ OutstandingBalance_returns p (Some 0) (2 ^ 63) true (Some 0)
  /\ ~ OutstandingBalance_returns p (Some 0) (2 ^ 63) true
        (Some (Z.max 0 (2 ^ 63 * 1 - (0 - 0))))
  /\ (forall fuel, OutstandingBalance fuel q (Some 0) 0 true = OutOfFuel).
Proof.
  intros sel p q.
  assert (H : OutstandingBalance 1 p (Some 0) (2 ^ 63) true = Ret (Some 0))
    by reflexivity.
  split; [split; [discriminate | reflexivity]|].
  split; [exists 1%nat; exact H|].
  split.
  - intros [fuel H'].
    pose proof (OutstandingBalance_unique _ _ _ _ _ _ _ _ H H').
    discriminate.
  - apply paid_deal_diverges; [discriminate | discriminate |].
    apply (diverges_when_both_zero q 0); [discriminate | reflexivity..].
Qed.

(** C2, as amended. For Params and funds whose amounts are set, whatever
    [OutstandingBalance] returns is at least 0. With a price per byte
    that is not negative, [sent < 2^63] and [IntervalLowerBound(sent)]
    returning, it returns a single value, and that value is 0 exactly
    when [fundsReceived >= unsealPrice + IntervalLowerBound(sent) *
    pricePerByte] outside finalization and exactly when
    [fundsReceived >= unsealPrice + sent * pricePerByte] in
    finalization. *)
Theorem OutstandingBalance_zero_iff
        (sel : CborGenCompatibleNode) (piece : option Cid)
        (pricePerByte interval increase unsealPrice funds sent lb : Z)
        (fin : bool) :
  let p := priced sel piece pricePerByte interval increase unsealPrice in
  (forall r, OutstandingBalance_returns p (Some funds) sent fin r ->
             exists v, r = Some v /\ 0 <= v)
  /\ (0 <= pricePerByte ->
      0 <= sent < 2 ^ 63 ->
      IntervalLowerBound_returns p sent lb ->
      exists r,
        OutstandingBalance_returns p (Some funds) sent fin (Some r)
        /\ (forall r', OutstandingBalance_returns p (Some funds) sent fin r' ->
                       r' = Some r)
        /\ 0 <= r
        /\ (r = 0 <->
            unsealPrice + (if fin then sent else lb) * pricePerByte <= funds)).
Proof.
  intros p. subst p. split.
  { intros r [fuel Hr]. now apply balance_nonneg in Hr. }
  intros Hprice Hsent [fuel Hlb].
  pose proof (IntervalLowerBound_bounds _ _ _ _ (proj1 Hsent) Hlb) as Hb.
  set (m := if fin then sent else lb).
  assert (Hm : 0 <= m < 2 ^ 63) by (subst m; destruct fin; lia).
  assert (Hret : exists r,
             OutstandingBalance fuel
               (priced sel piece pricePerByte interval increase unsealPrice)
               (Some funds) sent fin = Ret (Some r)
             /\ 0 <= r
             /\ (r = 0 <-> unsealPrice + m * pricePerByte <= funds)).
  { destruct (Z_lt_le_dec funds unsealPrice) as [Hlt|Hle].
    - exists (unsealPrice - funds). split; [now apply unseal_shortfall|].
      split; [lia|]. split; [lia|]. nia.
    - destruct (Z.eq_dec pricePerByte 0) as [H0|H0].
      + exists 0. split; [now apply free_deal|].
        split; [lia|]. rewrite H0. split; [lia | reflexivity].
      + eexists. split.
        * rewrite (paid_deal _ _ _ _ _ _ _ _ _ lb fin Hle H0 Hlb).
          fold m. rewrite to_int64_small by lia. reflexivity.
        * split; lia. }
  destruct Hret as (r & Hr & Hpos & Hiff).
  exists r. split; [now exists fuel|]. split; [|split; assumption].
  intros r' [fuel' Hr'].
  exact (OutstandingBalance_unique _ _ _ _ _ _ _ _ Hr' Hr).
Qed.

Lemma OutstandingBalance_zero_iff_witness :
  let p := priced (mkCborGenCompatibleNode None) None 10 100 50 0 in
  exists r,
    OutstandingBalance_returns p (Some 1000) 150 false (Some r)
    /\ (forall r', OutstandingBalance_returns p (Some 1000) 150 false r' ->
                   r' = Some r)
    /\ 0 <= r
    /\ (r = 0 <-> 0 + 100 * 10 <= 1000).
Proof.
  intros p.
  apply (OutstandingBalance_zero_iff (mkCborGenCompatibleNode None) None
           10 100 50 0 1000 150 100 false).
  - discriminate.
  - split; [discriminate | reflexivity].
  - exists 2%nat. reflexivity.
Defined.

(** Why the price must not be negative: with price -1, unseal price 5,
    interval 1 and 10 bytes sent, nothing paid, the funds are at least
    [unsealPrice + 10 * pricePerByte = -5] and the balance is 5. *)
Lemma negative_price_breaks_equivalence :
  let p := priced (mkCborGenCompatibleNode None) None (-1) 1 0 5 in
  IntervalLowerBound 11 p 10 = Some 10
  /\ OutstandingBalance 11 p (Some 0) 10 false = Ret (Some 5)
  /\ 5 + 10 * -1 <= 0.
Proof.
  intros p. repeat split. discriminate.
Qed.

(** Price 1, interval 2^64 - 1, unseal price 0, nothing paid, 2^63 bytes
    sent, in finalization: the balance is 0 although the funds are below
    [unsealPrice + sent * pricePerByte = 2^63]. Price 1, interval and
    increase 0, nothing paid, 7 bytes sent: no value at all is returned. *)
Lemma zero_balance_below_required :
  let p := priced (mkCborGenCompatibleNode None) None 1 (2 ^ 64 - 1) 0 0 in
  let q := priced (mkCborGenCompatibleNode None) None 1 0 0 0 in
  Uint64.in_range (2 ^ 63)
  /\ OutstandingBalance 1 p (Some 0) (2 ^ 63) true = Ret (Some 0)
  /\ ~ (0 + 2 ^ 63 * 1 <= 0)
  /\ (forall fin r, ~ OutstandingBalance_returns q (Some 0) 7 fin r).
Proof.
  intros p q. split; [split; [discriminate | reflexivity]|].
  split; [reflexivity|]. split; [intros H; apply H; reflexivity|].
  intros fin r [fuel H]. subst q.
  rewrite paid_deal_diverges in H; try discriminate.
  apply (diverges_when_both_zero _ 7); [discriminate | reflexivity..].
Qed.

(** C4. With the price per byte nil and the unseal price covered,
    [OutstandingBalance] does not take the free-deal path: [IsZero]
    dereferences the nil pointer and the call panics, where a zero price
    returns 0 and where the sibling [NextInterval] tests [NilOrZero] and
    returns 0 for nil and for zero alike. *)
Theorem OutstandingBalance_nil_price_panics
        (sel : CborGenCompatibleNode) (piece : option Cid)
        (interval increase unsealPrice funds sent : Z) (fin : bool)
        (fuel : nat) :
  let nilPrice := mkParams sel piece None interval increase (Some unsealPrice) in
  let zeroPrice := mkParams sel piece (Some 0) interval increase (Some unsealPrice) in
  unsealPrice <= funds ->
  OutstandingBalance fuel nilPrice (Some funds) sent fin = Panic
  /\ OutstandingBalance fuel zeroPrice (Some funds) sent fin = Ret (Some 0)
  /\ NextInterval fuel nilPrice (Some funds) = Ret 0
  /\ NextInterval fuel zeroPrice (Some funds) = Ret 0.
Proof.
  intros nilPrice zeroPrice H. split; [|split; [|split; reflexivity]].
  - unfold OutstandingBalance, Big.LessThan. cbn.
    rewrite (not_less _ _ H). reflexivity.
  - now apply free_deal.
Qed.

Lemma OutstandingBalance_nil_price_panics_witness :
  let sel := mkCborGenCompatibleNode None in
  OutstandingBalance 5 (mkParams sel None None 100 50 (Some 0)) (Some 0) 0 false
  = Panic
  /\ OutstandingBalance 5 (mkParams sel None (Some 0) 100 50 (Some 0)) (Some 0) 0 false
     = Ret (Some 0)
  /\ NextInterval 5 (mkParams sel None None 100 50 (Some 0)) (Some 0) = Ret 0
  /\ NextInterval 5 (mkParams sel None (Some 0) 100 50 (Some 0)) (Some 0) = Ret 0.
Proof.
  intros sel.
  apply (OutstandingBalance_nil_price_panics sel None 100 50 0 0 0 false 5).
  discriminate.
Defined.

End BalanceFacts.

(** ** The locator of unsealed pieces *)

Module LocatorFacts.
Import DagStore.

Section Passes.

Variables World Reader : Type.
Variable GetPieceInfo : Cid -> World -> (string + PieceInfo) * World.
Variable IsUnsealed : Z -> Z -> Z -> World -> (string + bool) * World.
Variable UnsealSector : Z -> Z -> Z -> World -> (string + Reader) * World.

Local Abbreviation available := (isUnsealed World IsUnsealed).
Local Abbreviation open := (unsealSector World Reader UnsealSector).
Local Abbreviation pass1 := (preferUnsealed World Reader IsUnsealed UnsealSector).
Local Abbreviation pass2 := (unsealFirst World Reader UnsealSector).
Local Abbreviation fetch :=
  (FetchUnsealedPiece World Reader GetPieceInfo IsUnsealed UnsealSector).
Local Abbreviation firstPassR := (firstPass World Reader IsUnsealed UnsealSector).
Local Abbreviation secondPassR := (secondPass World Reader UnsealSector).
Local Abbreviation fetchR :=
  (fetchContent World Reader GetPieceInfo IsUnsealed UnsealSector).
Local Abbreviation allFail := (allOpensFail World Reader UnsealSector).

Lemma firstPass_sound (deals : list DealInfo) :
  forall w, firstPassR deals w (fst (pass1 deals w)) (snd (pass1 deals w)).
Proof.
  induction deals as [|d rest IH]; intros w; cbn [preferUnsealed].
  - constructor.
  - destruct (available d w) as [[e|[|]] w1] eqn:Ea.
    + eapply firstPass_check_error; eauto.
    + destruct (open d w1) as [[e|r] w2] eqn:Eo.
      * eapply firstPass_open_failed; eauto.
      * eapply firstPass_opened; eauto.
    + eapply firstPass_not_available; eauto.
Qed.

Lemma firstPass_complete (deals : list DealInfo) (w w' : World)
      (o : option Reader) :
  firstPassR deals w o w' -> pass1 deals w = (o, w').
Proof.
  induction 1 as [w | d rest w w1 w' e o Ha _ IH
                  | d rest w w1 w' o Ha _ IH
                  | d rest w w1 w2 r Ha Ho
                  | d rest w w1 w2 w' e o Ha Ho _ IH];
    cbn [preferUnsealed]; try rewrite Ha; try rewrite Ho; auto.
Qed.

Lemma secondPass_sound (deals : list DealInfo) :
  forall lastErr w,
    secondPassR deals lastErr w (fst (pass2 deals lastErr w))
                (snd (pass2 deals lastErr w)).
Proof.
  induction deals as [|d rest IH]; intros lastErr w; cbn [unsealFirst].
  - constructor.
  - destruct (open d w) as [[e|r] w1] eqn:Eo.
    + eapply secondPass_open_failed; eauto.
    + eapply secondPass_opened; eauto.
Qed.

Lemma secondPass_complete (deals : list DealInfo) (lastErr : string)
      (w w' : World) (res : string + Reader) :
  secondPassR deals lastErr w res w' -> pass2 deals lastErr w = (res, w').
Proof.
  induction 1 as [lastErr w | d rest lastErr w w1 r Ho
                  | d rest lastErr e w w1 w' res Ho _ IH];
    cbn [unsealFirst]; try rewrite Ho; auto.
Qed.

Lemma no_deals (pi : PieceInfo) :
  (List.length (Deals pi) <=? 0)%nat = true <-> Deals pi = [].
Proof.
  destruct (Deals pi); cbn; split; (reflexivity || discriminate).
Qed.

(** The code computes exactly what the two-pass description relates. *)
Lemma fetch_refines (c : Cid) (w w' : World) (res : string + Reader) :
  fetch c w = (res, w') <-> fetchR c w res w'.
Proof.
  unfold FetchUnsealedPiece. split.
  - destruct (GetPieceInfo c w) as [[e|pi] w0] eqn:Eg.
    + intros [= <- <-]. now constructor.
    + destruct (List.length (Deals pi) <=? 0)%nat eqn:El.
      * intros [= <- <-]. apply no_deals in El.
        eapply fetch_no_locations; eassumption.
      * assert (Hne : Deals pi <> []).
        { intros H. apply no_deals in H. congruence. }
        pose proof (firstPass_sound (Deals pi) w0) as H1.
        destruct (pass1 (Deals pi) w0) as [[r|] w1]; cbn [fst snd] in H1.
        -- intros [= <- <-]. eapply fetch_first_pass; eauto.
        -- intros H2.
           pose proof (secondPass_sound (Deals pi) ErrNoSectors w1) as H3.
           rewrite H2 in H3. eapply fetch_second_pass; eauto.
  - intros H.
    destruct H as [c w w0 e Eg | c w w0 pi Eg Hd
                   | c w w0 w1 pi r Eg Hd H1
                   | c w w0 w1 w2 pi res Eg Hd H1 H2]; rewrite Eg.
    + reflexivity.
    + apply no_deals in Hd. now rewrite Hd.
    + destruct (List.length (Deals pi) <=? 0)%nat eqn:El;
        [apply no_deals in El; contradiction|].
      now rewrite (firstPass_complete _ _ _ _ H1).
    + destruct (List.length (Deals pi) <=? 0)%nat eqn:El;
        [apply no_deals in El; contradiction|].
      rewrite (firstPass_complete _ _ _ _ H1).
      now apply secondPass_complete.
Qed.

(** Locations that pass one skipped can be followed by any others. *)
Lemma firstPass_app (pre rest : list DealInfo) (w w1 w' : World)
      (o : option Reader) :
  firstPassR pre w None w1 ->
  firstPassR rest w1 o w' ->
  firstPassR (pre ++ rest) w o w'.
Proof.
  intros H. remember None as none eqn:En. revert En.
  induction H as [w | d tl w w0 w1 e o' Ha _ IH
                  | d tl w w0 w1 o' Ha _ IH
                  | d tl w w0 w2 r Ha Ho
                  | d tl w w0 w2 w1 e o' Ha Ho _ IH];
    intros En Hrest; cbn [app].
  - assumption.
  - eapply firstPass_check_error; eauto.
  - eapply firstPass_not_available; eauto.
  - discriminate.
  - eapply firstPass_open_failed; eauto.
Qed.

Lemma secondPass_app (pre rest : list DealInfo) (lastErr e : string)
      (w w1 w' : World) (res : string + Reader) :
  secondPassR pre lastErr w (inl e) w1 ->
  secondPassR rest e w1 res w' ->
  secondPassR (pre ++ rest) lastErr w res w'.
Proof.
  intros H. remember (inl e) as failed eqn:Ef. revert Ef.
  induction H as [lastErr w | d tl lastErr w w0 r Ho
                  | d tl lastErr e0 w w0 w1 res' Ho _ IH];
    intros Ef Hrest; cbn [app].
  - injection Ef as ->. assumption.
  - discriminate.
  - eapply secondPass_open_failed; eauto.
Qed.

Lemma allOpensFail_secondPass (deals : list DealInfo) (w w' : World)
      (e : string) :
  allFail deals w e w' ->
  forall lastErr, secondPassR deals lastErr w (inl e) w'.
Proof.
  induction 1 as [d w w1 e Ho | d rest w w1 w' e e' Ho _ IH];
    intros lastErr.
  - eapply secondPass_open_failed; [eassumption | constructor].
  - eapply secondPass_open_failed; [eassumption | apply IH].
Qed.

Lemma allOpensFail_nonempty (deals : list DealInfo) (w w' : World)
      (e : string) :
  allFail deals w e w' -> deals <> [].
Proof. destruct 1; discriminate. Qed.

(** The behaviour of [FetchUnsealedPiece], case by case. *)
Lemma fetch_cases (c : Cid) (w : World) :
  (forall res w', fetch c w = (res, w') <-> fetchR c w res w')
  /\ (forall pi w0, GetPieceInfo c w = (inr pi, w0) -> Deals pi = [] ->
      fetch c w = (inl ErrNoDeals, w0))
  /\ (forall pi w0 pre d post w1 w2 w3 r,
      GetPieceInfo c w = (inr pi, w0) ->
      Deals pi = pre ++ d :: post ->
      firstPassR pre w0 None w1 ->
      available d w1 = (inr true, w2) ->
      open d w2 = (inr r, w3) ->
      fetch c w = (inr r, w3))
  /\ (forall pi w0 pre d post w1 w2 w3 e r,
      GetPieceInfo c w = (inr pi, w0) ->
      Deals pi = pre ++ d :: post ->
      firstPassR (Deals pi) w0 None w1 ->
      secondPassR pre ErrNoSectors w1 (inl e) w2 ->
      open d w2 = (inr r, w3) ->
      fetch c w = (inr r, w3))
  /\ (forall pi w0 w1 w2 e,
      GetPieceInfo c w = (inr pi, w0) ->
      firstPassR (Deals pi) w0 None w1 ->
      allFail (Deals pi) w1 e w2 ->
      fetch c w = (inl e, w2)).
Proof.
  split; [intros; apply fetch_refines|].
  split; [|split; [|split]].
  - intros pi w0 Eg Hd. apply fetch_refines.
    eapply fetch_no_locations; eassumption.
  - intros pi w0 pre d post w1 w2 w3 r Eg Hd H1 Ha Ho.
    apply fetch_refines. eapply fetch_first_pass; [eassumption | |].
    + rewrite Hd. now destruct pre.
    + rewrite Hd. eapply firstPass_app; [eassumption|].
      eapply firstPass_opened; eassumption.
  - intros pi w0 pre d post w1 w2 w3 e r Eg Hd H1 H2 Ho.
    apply fetch_refines. eapply fetch_second_pass; [eassumption | | eassumption |].
    + rewrite Hd. now destruct pre.
    + rewrite Hd. eapply secondPass_app; [eassumption|].
      eapply secondPass_opened; eassumption.
  - intros pi w0 w1 w2 e Eg H1 H2.
    apply fetch_refines. eapply fetch_second_pass; [eassumption | | eassumption |].
    + now apply allOpensFail_nonempty in H2.
    + now apply allOpensFail_secondPass.
Qed.

End Passes.

Import ThreeLocations.

(** With three locations of which only the third is at hand, the calls
    start with the three availability checks and the opening of the
    third; the first and the second location are opened only after the
    third failed to open. *)
Lemma third_location_first (opens : Z -> bool) :
  exists rest,
    snd (ThreeLocations.fetch opens)
    = [AskUnsealed 1; AskUnsealed 2; AskUnsealed 3; Unseal 3] ++ rest
    /\ (opens 3 = true -> rest = [] /\ fst (ThreeLocations.fetch opens) = inr 3)
    /\ (opens 3 = false -> exists rest', rest = Unseal 1 :: rest')
    /\ (opens 3 = false -> opens 1 = false -> opens 2 = false ->
        ThreeLocations.fetch opens
        = (inl "cannot unseal sector 3"%string,
           [AskUnsealed 1; AskUnsealed 2; AskUnsealed 3; Unseal 3;
            Unseal 1; Unseal 2; Unseal 3])).
Proof.
  unfold ThreeLocations.fetch, FetchUnsealedPiece, ThreeLocations.GetPieceInfo.
  cbn -[Z.eqb]. unfold isUnsealed, unsealSector, ThreeLocations.IsUnsealed,
    ThreeLocations.UnsealSector. cbn.
  destruct (opens 3) eqn:E3; cbn.
  - exists []. split; [reflexivity|]. split; [now split|].
    split; discriminate.
  - destruct (opens 1) eqn:E1; cbn.
    + eexists. split; [reflexivity|]. split; [discriminate|].
      split; [intros _; eexists; reflexivity | discriminate].
    + destruct (opens 2) eqn:E2; cbn.
      * eexists. split; [reflexivity|]. split; [discriminate|].
        split; [intros _; eexists; reflexivity | discriminate].
      * eexists. split; [reflexivity|]. split; [discriminate|].
        split; [intros _; eexists; reflexivity | reflexivity].
Qed.

(** C3. [FetchUnsealedPiece] makes two passes over the known locations.
    Pass one asks each location whether an unsealed copy is at hand,
    skips a location whose check errs or answers no, opens a location
    that answers yes and returns that stream at once, leaving the
    remaining locations alone. Only when pass one opened nothing does
    pass two unseal-and-open each location in order and return the first
    success. When every location fails in both passes the call fails
    with the last error recorded, that of the last location; without
    any location it fails with the no-deals error. With three locations
    of which only the third is at hand, the third is opened first and
    the first two only after that open failed. *)
Theorem FetchUnsealedPiece_two_passes :
  (forall (World Reader : Type)
          (GetPieceInfo : Cid -> World -> (string + PieceInfo) * World)
          (IsUnsealed : Z -> Z -> Z -> World -> (string + bool) * World)
          (UnsealSector : Z -> Z -> Z -> World -> (string + Reader) * World)
          (c : Cid) (w : World),
      let fetch := FetchUnsealedPiece World Reader GetPieceInfo IsUnsealed
                                      UnsealSector in
      let passOne := firstPass World Reader IsUnsealed UnsealSector in
      let passTwo := secondPass World Reader UnsealSector in
      (forall res w',
          fetch c w = (res, w')
          <-> fetchContent World Reader GetPieceInfo IsUnsealed UnsealSector
                           c w res w')
      /\ (forall pi w0,
             GetPieceInfo c w = (inr pi, w0) -> Deals pi = [] ->
             fetch c w = (inl ErrNoDeals, w0))
      /\ (forall pi w0 pre d post w1 w2 w3 r,
             GetPieceInfo c w = (inr pi, w0) ->
             Deals pi = pre ++ d :: post ->
             passOne pre w0 None w1 ->
             isUnsealed World IsUnsealed d w1 = (inr true, w2) ->
             unsealSector World Reader UnsealSector d w2 = (inr r, w3) ->
             fetch c w = (inr r, w3))
      /\ (forall pi w0 pre d post w1 w2 w3 e r,
             GetPieceInfo c w = (inr pi, w0) ->
             Deals pi = pre ++ d :: post ->
             passOne (Deals pi) w0 None w1 ->
             passTwo pre ErrNoSectors w1 (inl e) w2 ->
             unsealSector World Reader UnsealSector d w2 = (inr r, w3) ->
             fetch c w = (inr r, w3))
      /\ (forall pi w0 w1 w2 e,
             GetPieceInfo c w = (inr pi, w0) ->
             passOne (Deals pi) w0 None w1 ->
             allOpensFail World Reader UnsealSector (Deals pi) w1 e w2 ->
             fetch c w = (inl e, w2)))
  /\ (forall opens : Z -> bool,
        exists rest,
          snd (ThreeLocations.fetch opens)
          = [AskUnsealed 1; AskUnsealed 2; AskUnsealed 3; Unseal 3] ++ rest
          /\ (opens 3 = true ->
              rest = [] /\ fst (ThreeLocations.fetch opens) = inr 3)
          /\ (opens 3 = false -> exists rest', rest = Unseal 1 :: rest')
          /\ (opens 3 = false -> opens 1 = false -> opens 2 = false ->
              ThreeLocations.fetch opens
              = (inl "cannot unseal sector 3"%string,
                 [AskUnsealed 1; AskUnsealed 2; AskUnsealed 3; Unseal 3;
                  Unseal 1; Unseal 2; Unseal 3]))).
Proof.
  split.
  - intros. apply fetch_cases.
  - apply third_location_first.
Qed.

(** The third location is at hand and opens: the stream of the third is
    returned after four calls. *)
Lemma FetchUnsealedPiece_two_passes_witness :
  ThreeLocations.fetch (fun _ => true)
  = (inr 3, [AskUnsealed 1; AskUnsealed 2; AskUnsealed 3; Unseal 3]).
Proof.
  destruct FetchUnsealedPiece_two_passes as [general _].
  destruct (general Trace Z ThreeLocations.GetPieceInfo
              ThreeLocations.IsUnsealed
              (ThreeLocations.UnsealSector (fun _ => true))
              piece []) as (_ & _ & hit & _).
  apply (hit (mkPieceInfo piece [one; two; three]) []
             [one; two] three [] [AskUnsealed 1; AskUnsealed 2]
             [AskUnsealed 1; AskUnsealed 2; AskUnsealed 3]).
  - reflexivity.
  - reflexivity.
  - eapply firstPass_not_available; [reflexivity|].
    eapply firstPass_not_available; [reflexivity|].
    apply firstPass_done.
  - reflexivity.
  - reflexivity.
Defined.

End LocatorFacts.

(** ** The byte form and the CBOR form of a token amount *)

Module TokenAmountBytesFacts.
Import TokenAmountBytes.









(** *** The CBOR head *)









(** *** The content of the byte string *)




(** Eight bytes are the most a head has for its argument: a head written
    for 2^64 + 1 bytes announces one byte. *)
Lemma head_argument_is_64_bit :
  readHeader (cborHeader MajByteString (2 ^ 64 + 1))
  = Some (MajByteString, 1, []).
Proof. reflexivity. Qed.




End TokenAmountBytesFacts.

(** ** Deal status *)

Module StatusFacts.
Import RetrievalMarket.

(** C8. [IsTerminalError] holds exactly of deal-not-found, failing and
    rejected; [IsTerminalSuccess] exactly of completed; [IsTerminalStatus]
    exactly of these four, and of no other status value. *)
Theorem terminal_status_classification
        (DealStatusDealNotFound DealStatusFailing DealStatusRejected
         DealStatusCompleted status : DealStatus) :
  let isError := IsTerminalError DealStatusDealNotFound DealStatusFailing
                                 DealStatusRejected in
  let isSuccess := IsTerminalSuccess DealStatusCompleted in
  let isTerminal := IsTerminalStatus DealStatusDealNotFound DealStatusFailing
                                     DealStatusRejected DealStatusCompleted in
  (isError status = true <->
   status = DealStatusDealNotFound \/ status = DealStatusFailing
   \/ status = DealStatusRejected)
  /\ (isSuccess status = true <-> status = DealStatusCompleted)
  /\ (isTerminal status = true <->
      status = DealStatusDealNotFound \/ status = DealStatusFailing
      \/ status = DealStatusRejected \/ status = DealStatusCompleted)
  /\ (isTerminal status = isError status || isSuccess status)
  /\ (status <> DealStatusDealNotFound -> status <> DealStatusFailing ->
      status <> DealStatusRejected -> status <> DealStatusCompleted ->
      isTerminal status = false).
Proof.
  cbv zeta. unfold IsTerminalStatus, IsTerminalError, IsTerminalSuccess.
  destruct (Z.eqb_spec status DealStatusDealNotFound),
           (Z.eqb_spec status DealStatusFailing),
           (Z.eqb_spec status DealStatusRejected),
           (Z.eqb_spec status DealStatusCompleted);
    cbn; intuition (congruence || discriminate).
Qed.

(** With not-found 16, failing 8, rejected 9 and completed 15, the
    mid-transfer status 13 is not terminal. *)
Lemma terminal_status_classification_witness :
  IsTerminalStatus 16 8 9 15 13 = false.
Proof.
  apply (terminal_status_classification 16 8 9 15 13); discriminate.
Defined.

End StatusFacts.

(** ** Constructing Params *)

Module ParamsFacts.
Import RetrievalMarket.

(** C10, as amended. [NewParamsV1] with a nil selector returns an error
    together with the zero-value Params. With a non-nil selector it
    returns, with no error, Params carrying exactly the given selector,
    piece identifier, price per byte, payment interval, payment interval
    increase and unseal price; [SelectorSpecified] is true on that result
    exactly when the selector is not the null node. *)
Theorem NewParamsV1_result
        (pricePerByte : TokenAmount) (interval increase : Z)
        (pieceCid : option Cid) (unsealPrice : TokenAmount) :
  NewParamsV1 pricePerByte interval increase None pieceCid unsealPrice
  = (ParamsZero, Some "selector required for NewParamsV1"%string)
  /\ forall n : IpldNode,
      let r := NewParamsV1 pricePerByte interval increase (Some n)
                           pieceCid unsealPrice in
      snd r = None
      /\ Selector (fst r) = mkCborGenCompatibleNode (Some n)
      /\ PieceCID (fst r) = pieceCid
      /\ PricePerByte (fst r) = pricePerByte
      /\ PaymentInterval (fst r) = interval
      /\ PaymentIntervalIncrease (fst r) = increase
      /\ UnsealPrice (fst r) = unsealPrice
      /\ (SelectorSpecified (fst r) = true <-> n <> NNull).
Proof.
  split; [reflexivity|].
  intros n r. repeat split; try reflexivity;
    destruct n; cbn; (congruence || discriminate).
Qed.

(** The null node is a selector that is not nil: no error, and
    [SelectorSpecified] is false on the result. *)
Lemma null_selector_not_specified :
  let r := NewParamsV1 (Some 10) 100 50 (Some NNull) None (Some 0) in
  Some NNull <> (None : Node)
  /\ snd r = None
  /\ SelectorSpecified (fst r) = false.
Proof.
  intros r. repeat split. discriminate.
Qed.

End ParamsFacts.

(** ** Decoding the wire records *)

Module DecoderFacts.
Import RetrievalMarket Wire.

Section Decoders.

Variable TypeFromNode :
  IpldNode -> PtrType -> exec (GoValue * option string).

(** A nil node never reaches [TypeFromNode]. *)
Lemma nil_node_is_empty_voucher :
  DealProposalFromNode TypeFromNode None = Ret (None, Some "empty voucher"%string)
  /\ DealResponseFromNode TypeFromNode None = Ret (None, Some "empty voucher"%string)
  /\ DealPaymentFromNode TypeFromNode None = Ret (None, Some "empty voucher"%string).
Proof. repeat split. Qed.

(** An error of [TypeFromNode] comes back wrapped, with no record. *)
Lemma type_error_is_wrapped (n : IpldNode) (v : GoValue) (e : string) :
  (TypeFromNode n PtrDealProposal = Ret (v, Some e) ->
   DealProposalFromNode TypeFromNode (Some n)
   = Ret (None, Some ("invalid DealProposal: " ++ e)%string))
  /\ (TypeFromNode n PtrDealResponse = Ret (v, Some e) ->
      DealResponseFromNode TypeFromNode (Some n)
      = Ret (None, Some ("invalid DealResponse: " ++ e)%string))
  /\ (TypeFromNode n PtrDealPayment = Ret (v, Some e) ->
      DealPaymentFromNode TypeFromNode (Some n)
      = Ret (None, Some ("invalid DealPayment: " ++ e)%string)).
Proof.
  repeat split; intros H; cbn; rewrite H; reflexivity.
Qed.

End Decoders.

(** With the shape check of the specification behind [TypeFromNode], a
    node of the wrong shape is answered with the description of the
    fault. *)
Lemma wrong_shape_is_described
      (unwrap : PtrType -> IpldNode -> GoValue) (n : IpldNode) (e : string) :
  (mismatch DealProposalSchema n = Some e ->
   DealProposalFromNode (Wire.TypeFromNode unwrap) (Some n)
   = Ret (None, Some ("invalid DealProposal: " ++ e)%string))
  /\ (mismatch DealResponseSchema n = Some e ->
      DealResponseFromNode (Wire.TypeFromNode unwrap) (Some n)
      = Ret (None, Some ("invalid DealResponse: " ++ e)%string))
  /\ (mismatch DealPaymentSchema n = Some e ->
      DealPaymentFromNode (Wire.TypeFromNode unwrap) (Some n)
      = Ret (None, Some ("invalid DealPayment: " ++ e)%string)).
Proof.
  repeat split; intros H;
    apply (type_error_is_wrapped (Wire.TypeFromNode unwrap) n VOther e);
    unfold Wire.TypeFromNode, schemaOf; now rewrite H.
Qed.

(** With that shape check no decoder panics or loops, whatever the node. *)
Lemma decoders_return
      (unwrap : PtrType -> IpldNode -> GoValue) (node : Node) :
  (exists r, DealProposalFromNode (Wire.TypeFromNode unwrap) node = Ret r)
  /\ (exists r, DealResponseFromNode (Wire.TypeFromNode unwrap) node = Ret r)
  /\ (exists r, DealPaymentFromNode (Wire.TypeFromNode unwrap) node = Ret r).
Proof.
  destruct node as [n|]; [|repeat split; eexists; reflexivity].
  unfold DealProposalFromNode, DealResponseFromNode, DealPaymentFromNode,
    Wire.TypeFromNode.
  repeat split.
  - destruct (mismatch (schemaOf PtrDealProposal) n); eexists; reflexivity.
  - destruct (mismatch (schemaOf PtrDealResponse) n); eexists; reflexivity.
  - destruct (mismatch (schemaOf PtrDealPayment) n); eexists; reflexivity.
Qed.

(** C7. Each of [DealProposalFromNode], [DealResponseFromNode] and
    [DealPaymentFromNode] answers a nil node with the "empty voucher"
    error, without calling the typed decoding and without a panic;
    an error of the typed decoding is returned wrapped in a message that
    names the record; and with the typed decoding checking the node
    against the schema of the record, a node of another shape is
    answered with the description of the fault, and no node makes a
    decoder panic. *)
Theorem decoders_fail_with_errors :
  (forall TypeFromNode,
      DealProposalFromNode TypeFromNode None
      = Ret (None, Some "empty voucher"%string)
      /\ DealResponseFromNode TypeFromNode None
         = Ret (None, Some "empty voucher"%string)
      /\ DealPaymentFromNode TypeFromNode None
         = Ret (None, Some "empty voucher"%string))
  /\ (forall TypeFromNode n v e,
        (TypeFromNode n PtrDealProposal = Ret (v, Some e) ->
         DealProposalFromNode TypeFromNode (Some n)
         = Ret (None, Some ("invalid DealProposal: " ++ e)%string))
        /\ (TypeFromNode n PtrDealResponse = Ret (v, Some e) ->
            DealResponseFromNode TypeFromNode (Some n)
            = Ret (None, Some ("invalid DealResponse: " ++ e)%string))
        /\ (TypeFromNode n PtrDealPayment = Ret (v, Some e) ->
            DealPaymentFromNode TypeFromNode (Some n)
            = Ret (None, Some ("invalid DealPayment: " ++ e)%string)))
  /\ (forall unwrap n e,
        (mismatch DealProposalSchema n = Some e ->
         DealProposalFromNode (Wire.TypeFromNode unwrap) (Some n)
         = Ret (None, Some ("invalid DealProposal: " ++ e)%string))
        /\ (mismatch DealResponseSchema n = Some e ->
            DealResponseFromNode (Wire.TypeFromNode unwrap) (Some n)
            = Ret (None, Some ("invalid DealResponse: " ++ e)%string))
        /\ (mismatch DealPaymentSchema n = Some e ->
            DealPaymentFromNode (Wire.TypeFromNode unwrap) (Some n)
            = Ret (None, Some ("invalid DealPayment: " ++ e)%string)))
  /\ (forall unwrap node,
        (exists r, DealProposalFromNode (Wire.TypeFromNode unwrap) node = Ret r)
        /\ (exists r, DealResponseFromNode (Wire.TypeFromNode unwrap) node = Ret r)
        /\ (exists r, DealPaymentFromNode (Wire.TypeFromNode unwrap) node = Ret r)).
Proof.
  split; [exact nil_node_is_empty_voucher|].
  split; [exact type_error_is_wrapped|].
  split; [exact wrong_shape_is_described | exact decoders_return].
Qed.

(** A response with three fields instead of four, one with a string for
    its status, and the null node. *)
Lemma decoders_fail_with_errors_witness :
  let unwrap := fun (_ : PtrType) (_ : IpldNode) => VOther in
  let short := NMap [("Status", NInt 6); ("ID", NInt 1);
                     ("Message", NString "")]%string in
  let mistyped := NMap [("Status", NString "ok"); ("ID", NInt 1);
                        ("PaymentOwed", NBytes []);
                        ("Message", NString "")]%string in
  DealResponseFromNode (Wire.TypeFromNode unwrap) (Some short)
  = Ret (None, Some "invalid DealResponse: wrong field count"%string)
  /\ DealResponseFromNode (Wire.TypeFromNode unwrap) (Some mistyped)
     = Ret (None, Some "invalid DealResponse: Status: wrong field type: Int expected"%string)
  /\ DealProposalFromNode (Wire.TypeFromNode unwrap) (Some NNull)
     = Ret (None, Some "invalid DealProposal: null payload where a struct is expected"%string).
Proof.
  intros unwrap short mistyped.
  destruct decoders_fail_with_errors as (_ & _ & described & _).
  split; [|split].
  - apply (described unwrap short "wrong field count"%string). reflexivity.
  - apply (described unwrap mistyped
             "Status: wrong field type: Int expected"%string). reflexivity.
  - apply (described unwrap NNull
             "null payload where a struct is expected"%string). reflexivity.
Defined.

End DecoderFacts.

(** ** More on the payment schedule *)

Module ScheduleMore.
Import RetrievalMarket Schedule Uint64Facts ScheduleFacts DealStates.

(** Without wrap-around, the index of the first checkpoint beyond [cur]
    gives both results. *)
Lemma at_index (interval increase cur : Z) (n : nat) :
  0 <= interval ->
  0 <= increase ->
  (forall j, (j < n)%nat -> boundary interval increase j <= cur) ->
  cur < boundary interval increase n < Uint64.modulus ->
  IntervalLowerBound_loop n increase cur interval 0 0
  = Some (boundary interval increase (Nat.pred n))
  /\ nextInterval_loop n increase cur interval 0
     = Some (boundary interval increase n).
Proof.
  intros Hi Hd Hbelow [Hgt Hfit].
  assert (Hexact : forall j, (j <= n)%nat ->
                             target_at interval increase j
                             = boundary interval increase j).
  { intros j Hj. apply target_exact; try assumption.
    pose proof (boundary_mono interval increase Hi Hd j n Hj). lia. }
  split.
  - rewrite <- Hexact by lia. apply IntervalLowerBound_loop_first.
    + intros j Hj. rewrite Hexact by lia. now apply Hbelow.
    + now rewrite Hexact.
  - rewrite <- Hexact by lia. apply nextInterval_loop_first.
    + intros j Hj. rewrite Hexact by lia. now apply Hbelow.
    + now rewrite Hexact.
Qed.

(** X1. On the same argument [IntervalLowerBound] returns exactly when
    [nextInterval] does, and the two results are consecutive targets of
    the loop: the lower bound is at most the argument, the next interval
    is above it, and the next interval is the lower bound plus the
    interval size reached, in 64-bit arithmetic. *)
Theorem lower_bound_and_next_are_consecutive (p : Params) (x : Z) :
  0 <= x ->
  ((exists lb, IntervalLowerBound_returns p x lb)
   <-> (exists nx, nextInterval_returns p x nx))
  /\ (forall lb nx,
         IntervalLowerBound_returns p x lb ->
         nextInterval_returns p x nx ->
         exists k : nat,
           lb = target_at (PaymentInterval p) (PaymentIntervalIncrease p) k
           /\ nx = target_at (PaymentInterval p) (PaymentIntervalIncrease p) (S k)
           /\ nx = Uint64.add lb (size_at (PaymentInterval p)
                                          (PaymentIntervalIncrease p) k)
           /\ 0 <= lb <= x /\ x < nx < Uint64.modulus).
Proof.
  intros Hx. split.
  - destruct (returns_iff_target_above p x) as [H1 H2].
    rewrite H1, H2. reflexivity.
  - intros lb nx [f1 H1] [f2 H2].
    pose proof (IntervalLowerBound_bounds _ _ _ _ Hx H1) as Hlb.
    pose proof (nextInterval_bounds _ _ _ _ H2) as Hnx.
    apply IntervalLowerBound_loop_some in H1.
    apply nextInterval_loop_some in H2.
    destruct H1 as (n & Hn & Hbn & Elb), H2 as (m & Hm & Hbm & Enx).
    pose proof (first_unique _ _ _ n m Hn Hbn Hm Hbm) as <-.
    destruct n as [|k].
    { rewrite target_0 in Hn. lia. }
    exists k. cbn [Nat.pred] in Elb.
    repeat split; try assumption; try lia.
    rewrite Enx, Elb. symmetry. apply target_step.
Qed.

Lemma lower_bound_and_next_are_consecutive_witness :
  let p := priced (mkCborGenCompatibleNode None) None 10 100 50 0 in
  exists k : nat,
    100 = target_at 100 50 k
    /\ 250 = target_at 100 50 (S k)
    /\ 250 = Uint64.add 100 (size_at 100 50 k)
    /\ 0 <= 100 <= 150 /\ 150 < 250 < Uint64.modulus.
Proof.
  intros p.
  destruct (lower_bound_and_next_are_consecutive p 150) as [_ H].
  - discriminate.
  - apply (H 100 250).
    + exists 2%nat. reflexivity.
    + exists 2%nat. reflexivity.
Defined.

(** X2. Without wrap-around ([PaymentInterval] and
    [PaymentIntervalIncrease] not negative, some checkpoint beyond [x]
    below 2^64) the lower bound of [x] is a fixed point:
    [IntervalLowerBound] maps it to itself and [nextInterval] gives the
    same next interval for it as for [x]. *)
Theorem lower_bound_is_fixed_point (p : Params) (x : Z) (K : nat) :
  0 <= PaymentInterval p ->
  0 <= PaymentIntervalIncrease p ->
  0 <= x ->
  x < boundary (PaymentInterval p) (PaymentIntervalIncrease p) K
    < Uint64.modulus ->
  exists lb nx,
    IntervalLowerBound_returns p x lb
    /\ nextInterval_returns p x nx
    /\ IntervalLowerBound_returns p lb lb
    /\ nextInterval_returns p lb nx.
Proof.
  intros Hi Hd Hx HK.
  destruct (checkpoints _ _ Hi Hd x K Hx HK)
    as (n & Hn & Hbelow & Hgt & Hlow & Hnext).
  set (bnd := boundary (PaymentInterval p) (PaymentIntervalIncrease p)) in *.
  assert (Hfit : bnd n < Uint64.modulus).
  { pose proof (boundary_mono _ _ Hi Hd n K ltac:(lia)). fold bnd in H. lia. }
  destruct (at_index (PaymentInterval p) (PaymentIntervalIncrease p)
              (bnd (Nat.pred n)) n Hi Hd) as [Hlow' Hnext'].
  - intros j Hj. apply boundary_mono; try assumption. lia.
  - fold bnd. split; [|assumption].
    specialize (Hbelow (Nat.pred n) ltac:(lia)). lia.
  - exists (bnd (Nat.pred n)), (bnd n).
    repeat split; exists n; assumption.
Qed.

Lemma lower_bound_is_fixed_point_witness :
  let p := priced (mkCborGenCompatibleNode None) None 10 100 50 0 in
  exists lb nx,
    IntervalLowerBound_returns p 150 lb
    /\ nextInterval_returns p 150 nx
    /\ IntervalLowerBound_returns p lb lb
    /\ nextInterval_returns p lb nx.
Proof.
  intros p. apply (lower_bound_is_fixed_point p 150 2).
  - discriminate.
  - discriminate.
  - discriminate.
  - split; reflexivity.
Defined.

(** X3. The client's [NextInterval] walks the checkpoints: with
    [PaymentInterval > 0] and a current interval that is the [k]-th
    checkpoint [k * PaymentInterval + k(k-1)/2 * PaymentIntervalIncrease],
    it returns the [k+1]-th, that is the current interval plus
    [PaymentInterval + k * PaymentIntervalIncrease], as long as that is
    below 2^64. *)
Theorem client_next_interval_walks_checkpoints
        (deal : ClientDealState) (k : nat) :
  let p := ProposalParams (ClientProposal deal) in
  0 < PaymentInterval p ->
  0 <= PaymentIntervalIncrease p ->
  CurrentInterval deal
  = boundary (PaymentInterval p) (PaymentIntervalIncrease p) k ->
  boundary (PaymentInterval p) (PaymentIntervalIncrease p) (S k)
  < Uint64.modulus ->
  ClientDealState_NextInterval (S k) deal
  = Some (CurrentInterval deal
          + (PaymentInterval p + Z.of_nat k * PaymentIntervalIncrease p))
  /\ 2 * CurrentInterval deal
     = 2 * Z.of_nat k * PaymentInterval p
       + Z.of_nat k * (Z.of_nat k - 1) * PaymentIntervalIncrease p.
Proof.
  intros p Hi Hd Hcur Hfit. split.
  - unfold ClientDealState_NextInterval, nextInterval. fold p. rewrite Hcur.
    destruct (at_index (PaymentInterval p) (PaymentIntervalIncrease p)
                (boundary (PaymentInterval p) (PaymentIntervalIncrease p) k)
                (S k)) as [_ H]; try lia.
    + intros j Hj. apply boundary_mono; lia.
    + split; [|assumption]. apply boundary_step_strict; lia.
    + exact H.
  - rewrite Hcur. apply boundary_closed.
Qed.

Lemma client_next_interval_walks_checkpoints_witness :
  let p := NewParamsV0 (Some 10) 100 50 in
  let deal :=
    mkClientDealState (mkDealProposal [1] 7 p) None None false false
                      (Some 0) [] [] None 0 EmptyString 0 EmptyString 0
                      250 (Some 0) (Some 0) (Some 0) None (Some 0) false in
  ClientDealState_NextInterval 3 deal = Some (250 + (100 + 2 * 50))
  /\ 2 * 250 = 2 * 2 * 100 + 2 * (2 - 1) * 50.
Proof.
  intros p deal.
  apply (client_next_interval_walks_checkpoints deal 2).
  - reflexivity.
  - discriminate.
  - reflexivity.
  - reflexivity.
Defined.

Lemma boundary_flat (interval : Z) (k : nat) :
  boundary interval 0 k = Z.of_nat k * interval.
Proof.
  pose proof (boundary_closed interval 0 k). lia.
Qed.

(** X4. With [PaymentIntervalIncrease = 0] and [PaymentInterval > 0] the
    schedule is flat: [IntervalLowerBound(x)] is [x] rounded down to a
    multiple of [PaymentInterval] and [nextInterval(x)] is the next
    multiple, provided that next multiple is below 2^64. *)
Theorem flat_schedule_rounds (p : Params) (x : Z) :
  0 < PaymentInterval p ->
  PaymentIntervalIncrease p = 0 ->
  0 <= x ->
  (x / PaymentInterval p + 1) * PaymentInterval p < Uint64.modulus ->
  IntervalLowerBound_returns p x (x / PaymentInterval p * PaymentInterval p)
  /\ nextInterval_returns p x ((x / PaymentInterval p + 1) * PaymentInterval p).
Proof.
  intros Hi Hd Hx Hfit.
  set (i := PaymentInterval p) in *.
  assert (Hq : 0 <= x / i) by (apply Z.div_pos; lia).
  pose proof (Z.div_mod x i ltac:(lia)) as Hdm.
  pose proof (Z.mod_pos_bound x i Hi) as Hmod.
  destruct (at_index i 0 x (S (Z.to_nat (x / i)))) as [Hlow Hnext];
    try lia.
  - intros j Hj. rewrite boundary_flat. nia.
  - rewrite boundary_flat, Nat2Z.inj_succ, Z2Nat.id by lia.
    split; [nia | lia].
  - cbn [Nat.pred] in Hlow.
    rewrite boundary_flat, Z2Nat.id in Hlow by lia.
    rewrite boundary_flat, Nat2Z.inj_succ, Z2Nat.id in Hnext by lia.
    unfold IntervalLowerBound_returns, nextInterval_returns,
      IntervalLowerBound, nextInterval.
    fold i. rewrite Hd.
    split; eexists; [exact Hlow|].
    replace ((x / i + 1) * i) with (Z.succ (x / i) * i) by lia. exact Hnext.
Qed.

Lemma flat_schedule_rounds_witness :
  let p := NewParamsV0 (Some 10) 100 0 in
  IntervalLowerBound_returns p 250 (250 / 100 * 100)
  /\ nextInterval_returns p 250 ((250 / 100 + 1) * 100).
Proof.
  intros p. apply (flat_schedule_rounds p 250).
  - reflexivity.
  - reflexivity.
  - discriminate.
  - reflexivity.
Defined.

End ScheduleMore.

(** ** More on balances, funds and quotes *)

Module BalanceMore.
Import RetrievalMarket Schedule Uint64Facts ScheduleFacts BalanceFacts.

Section Priced.

Variables (sel : CborGenCompatibleNode) (piece : option Cid).
Variables pricePerByte interval increase unsealPrice : Z.

Local Abbreviation p :=
  (priced sel piece pricePerByte interval increase unsealPrice).

(** The balance in one formula, once the loop has returned. *)
Lemma balance_value (fuel : nat) (funds sent lb : Z) (fin : bool) :
  0 <= sent < 2 ^ 63 ->
  IntervalLowerBound fuel p sent = Some lb ->
  OutstandingBalance fuel p (Some funds) sent fin
  = Ret (Some (balanceDue unsealPrice pricePerByte funds
                          (if fin then sent else lb))).
Proof.
  intros Hsent Hlb. unfold balanceDue.
  pose proof (IntervalLowerBound_bounds _ _ _ _ (proj1 Hsent) Hlb) as Hb.
  destruct (Z.ltb_spec funds unsealPrice) as [Hlt|Hle].
  - now apply unseal_shortfall.
  - destruct (Z.eqb_spec pricePerByte 0) as [H0|H0].
    + now apply free_deal.
    + rewrite (paid_deal _ _ _ _ _ _ _ _ _ lb fin Hle H0 Hlb).
      rewrite to_int64_small; [reflexivity|].
      destruct fin; lia.
Qed.

(** What [NextInterval] computes for a positive price: the first target
    beyond the bytes already paid for. *)
Lemma NextInterval_value (fuel : nat) (funds : Z) :
  0 < pricePerByte ->
  NextInterval fuel p (Some funds)
  = of_option (nextInterval fuel p
                 (Uint64.wrap (Z.max 0 ((funds - unsealPrice) / pricePerByte)))).
Proof.
  intros Hprice. unfold NextInterval. cbn.
  destruct (Z.eqb_spec pricePerByte 0) as [|_]; [lia|].
  assert (Hdiv : forall F,
             bind (Big.Div (Some F) (Some pricePerByte))
                  (fun bytesPaid =>
                     bind (Big.GreaterThan bytesPaid Big.Zero)
                          (fun positive : bool =>
                             bind (if positive then Big.Uint64 bytesPaid
                                   else Ret 0)
                                  (fun cur => of_option (nextInterval fuel p cur))))
             = of_option (nextInterval fuel p
                            (Uint64.wrap (Z.max 0 (F / pricePerByte))))).
  { intros F. cbn.
    destruct (Z.eqb_spec pricePerByte 0) as [|_]; [lia|].
    destruct (Z.ltb_spec 0 pricePerByte) as [_|]; [|lia].
    cbn. destruct (Z.compare_spec (F / pricePerByte) 0) as [E|E|E]; cbn.
    - rewrite E. reflexivity.
    - rewrite Z.max_l by lia. reflexivity.
    - rewrite Z.max_r, Z.abs_eq by lia. reflexivity. }
  destruct (Z.eqb_spec unsealPrice 0) as [->|_]; cbn [negb].
  - rewrite Z.sub_0_r. apply Hdiv.
  - apply Hdiv.
Qed.

End Priced.

(** X5. Outside finalization nothing is owed exactly while the bytes
    sent stay below [NextInterval(fundsReceived)]: for a positive price,
    an unseal price that is covered, [sent < 2^63] and no wrap-around
    (a checkpoint beyond both [sent] and the bytes paid for is below
    2^64), [NextInterval] and [OutstandingBalance] both return, and the
    balance is 0 if and only if [sent] is less than the next interval. *)
Theorem nothing_owed_below_next_interval
        (sel : CborGenCompatibleNode) (piece : option Cid)
        (pricePerByte interval increase unsealPrice funds sent : Z)
        (K : nat) :
  let p := priced sel piece pricePerByte interval increase unsealPrice in
  0 < pricePerByte ->
  0 <= interval ->
  0 <= increase ->
  0 <= unsealPrice <= funds ->
  0 <= sent < 2 ^ 63 ->
  sent < boundary interval increase K < Uint64.modulus ->
  (funds - unsealPrice) / pricePerByte < boundary interval increase K ->
  exists next owed,
    NextInterval_returns p (Some funds) next
    /\ OutstandingBalance_returns p (Some funds) sent false (Some owed)
    /\ (owed = 0 <-> sent < next).
Proof.
  intros p Hprice Hi Hd Hunseal Hsent HK Hpaid. subst p.
  set (paid := (funds - unsealPrice) / pricePerByte) in *.
  assert (Hpaid0 : 0 <= paid) by (apply Z.div_pos; lia).
  pose proof (Z.div_mod (funds - unsealPrice) pricePerByte ltac:(lia)) as Hdm.
  pose proof (Z.mod_pos_bound (funds - unsealPrice) pricePerByte Hprice) as Hr.
  fold paid in Hdm.
  destruct (checkpoints _ _ Hi Hd paid K Hpaid0 ltac:(lia))
    as (n & Hn & Hbn & Hgn & _ & Hnext).
  destruct (checkpoints _ _ Hi Hd sent K (proj1 Hsent) HK)
    as (m & Hm & Hbm & Hgm & Hlow & _).
  set (bnd := boundary interval increase) in *.
  exists (bnd n), (balanceDue unsealPrice pricePerByte funds (bnd (Nat.pred m))).
  split; [|split].
  - exists n. rewrite NextInterval_value by assumption. fold paid.
    rewrite Z.max_r by lia.
    rewrite wrap_small.
    + unfold nextInterval. cbn. fold bnd. now rewrite Hnext.
    + unfold Uint64.in_range. lia.
  - exists m.
    apply (balance_value sel piece pricePerByte interval increase unsealPrice
             m funds sent (bnd (Nat.pred m)) false Hsent).
    exact Hlow.
  - unfold balanceDue.
    destruct (Z.ltb_spec funds unsealPrice) as [|_]; [lia|].
    destruct (Z.eqb_spec pricePerByte 0) as [|_]; [lia|].
    assert (Hlb : bnd (Nat.pred m) <= sent) by (apply Hbm; lia).
    split.
    + intros Howed.
      assert (Hle : bnd (Nat.pred m) <= paid) by nia.
      destruct (Z_lt_le_dec sent (bnd n)) as [|Hge]; [assumption|].
      assert (Hlt : (n < m)%nat).
      { destruct (Nat.lt_ge_cases n m) as [|Hmn]; [assumption|].
        pose proof (boundary_mono _ _ Hi Hd m n Hmn) as Hmono.
        fold bnd in Hmono. lia. }
      pose proof (boundary_mono _ _ Hi Hd n (Nat.pred m) ltac:(lia)) as Hmono.
      fold bnd in Hmono. lia.
    + intros Hlt.
      assert (Hmn : (m <= n)%nat).
      { destruct (Nat.le_gt_cases m n) as [|Hnm]; [assumption|].
        specialize (Hbm n Hnm). lia. }
      assert (Hle : bnd (Nat.pred m) <= paid) by (apply Hbn; lia).
      nia.
Qed.

Lemma nothing_owed_below_next_interval_witness :
  let p := priced (mkCborGenCompatibleNode None) None 10 100 50 20 in
  exists next owed,
    NextInterval_returns p (Some 1020) next
    /\ OutstandingBalance_returns p (Some 1020) 249 false (Some owed)
    /\ (owed = 0 <-> 249 < next).
Proof.
  intros p.
  apply (nothing_owed_below_next_interval (mkCborGenCompatibleNode None) None
           10 100 50 20 1020 249 3).
  - reflexivity.
  - discriminate.
  - discriminate.
  - split; discriminate.
  - split; [discriminate | reflexivity].
  - split; reflexivity.
  - reflexivity.
Defined.

Lemma balanceDue_nonneg (unseal price funds bytes : Z) :
  0 <= balanceDue unseal price funds bytes.
Proof.
  unfold balanceDue.
  destruct (Z.ltb_spec funds unseal), (Z.eqb_spec price 0); lia.
Qed.

Lemma balanceDue_spec (unseal price funds bytes : Z) :
  (funds < unseal /\ balanceDue unseal price funds bytes = unseal - funds)
  \/ (unseal <= funds /\ price = 0
      /\ balanceDue unseal price funds bytes = 0)
  \/ (unseal <= funds /\ price <> 0
      /\ balanceDue unseal price funds bytes
         = Z.max 0 (bytes * price - (funds - unseal))).
Proof.
  unfold balanceDue.
  destruct (Z.ltb_spec funds unseal), (Z.eqb_spec price 0); auto.
Qed.

(** Paying what is due leaves what the bytes cost when the unseal fee was
    short, and nothing otherwise. *)
Lemma balanceDue_after_payment (unseal price funds bytes : Z) :
  let due := balanceDue unseal price funds bytes in
  let rest := balanceDue unseal price (funds + due) bytes in
  (unseal <= funds -> rest = 0)
  /\ balanceDue unseal price (funds + due + rest) bytes = 0.
Proof.
  intros due rest.
  pose proof (balanceDue_spec unseal price funds bytes) as H1.
  pose proof (balanceDue_spec unseal price (funds + due) bytes) as H2.
  pose proof (balanceDue_spec unseal price (funds + due + rest) bytes) as H3.
  fold due in H1. fold rest in H2.
  set (final := balanceDue unseal price (funds + due + rest) bytes) in *.
  clearbody due rest final.
  set (cost := bytes * price) in *. clearbody cost.
  lia.
Qed.

(** X6. Paying the balance settles the deal at the current point of the
    transfer in at most two payments: with [sent < 2^63] and
    [IntervalLowerBound(sent)] returning, after the funds are raised by
    the balance the new balance is 0 when the unseal price was already
    covered, and after they are raised by that second balance too the
    balance is 0 in every case. *)
Theorem paying_the_balance_settles
        (sel : CborGenCompatibleNode) (piece : option Cid)
        (pricePerByte interval increase unsealPrice funds sent lb : Z)
        (fin : bool) :
  let p := priced sel piece pricePerByte interval increase unsealPrice in
  0 <= sent < 2 ^ 63 ->
  IntervalLowerBound_returns p sent lb ->
  exists due rest,
    OutstandingBalance_returns p (Some funds) sent fin (Some due)
    /\ OutstandingBalance_returns p (Some (funds + due)) sent fin (Some rest)
    /\ OutstandingBalance_returns p (Some (funds + due + rest)) sent fin (Some 0)
    /\ 0 <= due /\ 0 <= rest
    /\ (unsealPrice <= funds -> rest = 0).
Proof.
  intros p Hsent [fuel Hlb]. subst p.
  set (bytes := if fin then sent else lb).
  pose proof (balanceDue_after_payment unsealPrice pricePerByte funds bytes)
    as [Hrest Hzero].
  cbn zeta in Hrest, Hzero.
  exists (balanceDue unsealPrice pricePerByte funds bytes),
         (balanceDue unsealPrice pricePerByte
            (funds + balanceDue unsealPrice pricePerByte funds bytes) bytes).
  repeat split; try apply balanceDue_nonneg; try assumption.
  - exists fuel. now apply balance_value.
  - exists fuel. now apply balance_value.
  - exists fuel. rewrite <- Hzero. now apply balance_value.
Qed.

Lemma paying_the_balance_settles_witness :
  let p := priced (mkCborGenCompatibleNode None) None 10 100 50 500 in
  exists due rest,
    OutstandingBalance_returns p (Some 200) 150 false (Some due)
    /\ OutstandingBalance_returns p (Some (200 + due)) 150 false (Some rest)
    /\ OutstandingBalance_returns p (Some (200 + due + rest)) 150 false (Some 0)
    /\ 0 <= due /\ 0 <= rest
    /\ (500 <= 200 -> rest = 0).
Proof.
  intros p.
  apply (paying_the_balance_settles (mkCborGenCompatibleNode None) None
           10 100 50 500 200 150 100 false).
  - split; [discriminate | reflexivity].
  - exists 2%nat. reflexivity.
Defined.

Lemma balanceDue_more_bytes (unseal price funds bytes bytes' : Z) :
  0 <= price -> bytes <= bytes' ->
  balanceDue unseal price funds bytes <= balanceDue unseal price funds bytes'.
Proof.
  intros Hprice Hle. unfold balanceDue.
  destruct (Z.ltb_spec funds unseal), (Z.eqb_spec price 0); nia.
Qed.

Lemma balanceDue_more_funds (unseal price funds funds' bytes : Z) :
  funds <= funds' ->
  unseal <= funds \/ funds' < unseal ->
  balanceDue unseal price funds' bytes <= balanceDue unseal price funds bytes.
Proof.
  intros Hle Hside. unfold balanceDue.
  destruct (Z.ltb_spec funds unseal), (Z.ltb_spec funds' unseal),
           (Z.eqb_spec price 0); lia.
Qed.

(** X7. The balance moves the way payments and transfers do. For a price
    that is not negative and without wrap-around up to [sent' < 2^63]:
    sending more never lowers the balance; paying more never raises it, as
    long as the two fund levels are on the same side of the unseal price;
    and finalization never asks less than the interval check does. *)
Theorem balance_is_monotone
        (sel : CborGenCompatibleNode) (piece : option Cid)
        (pricePerByte interval increase unsealPrice funds funds' sent sent' : Z)
        (fin : bool) (K : nat) :
  let p := priced sel piece pricePerByte interval increase unsealPrice in
  0 <= pricePerByte ->
  0 <= interval ->
  0 <= increase ->
  0 <= sent <= sent' ->
  sent' < 2 ^ 63 ->
  sent' < boundary interval increase K < Uint64.modulus ->
  funds <= funds' ->
  unsealPrice <= funds \/ funds' < unsealPrice ->
  exists owed moreSent morePaid atInterval atEnd,
    OutstandingBalance_returns p (Some funds) sent fin (Some owed)
    /\ OutstandingBalance_returns p (Some funds) sent' fin (Some moreSent)
    /\ OutstandingBalance_returns p (Some funds') sent fin (Some morePaid)
    /\ OutstandingBalance_returns p (Some funds) sent false (Some atInterval)
    /\ OutstandingBalance_returns p (Some funds) sent true (Some atEnd)
    /\ owed <= moreSent
    /\ morePaid <= owed
    /\ atInterval <= atEnd.
Proof.
  intros p Hprice Hi Hd Hsent Hsent' HK Hfunds Hside. subst p.
  destruct (checkpoints _ _ Hi Hd sent K) as (n & Hn & Hbn & Hgn & Hlow & _);
    [lia | lia |].
  destruct (checkpoints _ _ Hi Hd sent' K) as (m & Hm & Hbm & Hgm & Hlow' & _);
    [lia | lia |].
  set (bnd := boundary interval increase) in *.
  assert (Hnm : (n <= m)%nat).
  { destruct (Nat.le_gt_cases n m) as [|Hlt]; [assumption|].
    specialize (Hbn m Hlt). lia. }
  assert (Hlbs : bnd (Nat.pred n) <= bnd (Nat.pred m))
    by (apply boundary_mono; lia).
  assert (Hlb : bnd (Nat.pred n) <= sent) by (apply Hbn; lia).
  set (due := balanceDue unsealPrice pricePerByte).
  exists (due funds (if fin then sent else bnd (Nat.pred n))),
         (due funds (if fin then sent' else bnd (Nat.pred m))),
         (due funds' (if fin then sent else bnd (Nat.pred n))),
         (due funds (bnd (Nat.pred n))),
         (due funds sent).
  assert (Hv : forall f b,
             OutstandingBalance n
               (priced sel piece pricePerByte interval increase unsealPrice)
               (Some f) sent b
             = Ret (Some (due f (if b then sent else bnd (Nat.pred n))))).
  { intros f b. apply balance_value; [lia | exact Hlow]. }
  repeat split.
  - exists n. apply Hv.
  - exists m. apply balance_value; [lia | exact Hlow'].
  - exists n. apply Hv.
  - exists n. apply (Hv funds false).
  - exists n. apply (Hv funds true).
  - apply balanceDue_more_bytes; [assumption|]. destruct fin; lia.
  - now apply balanceDue_more_funds.
  - now apply balanceDue_more_bytes.
Qed.

Lemma balance_is_monotone_witness :
  let p := priced (mkCborGenCompatibleNode None) None 10 100 50 0 in
  exists owed moreSent morePaid atInterval atEnd,
    OutstandingBalance_returns p (Some 600) 150 false (Some owed)
    /\ OutstandingBalance_returns p (Some 600) 300 false (Some moreSent)
    /\ OutstandingBalance_returns p (Some 900) 150 false (Some morePaid)
    /\ OutstandingBalance_returns p (Some 600) 150 false (Some atInterval)
    /\ OutstandingBalance_returns p (Some 600) 150 true (Some atEnd)
    /\ owed <= moreSent
    /\ morePaid <= owed
    /\ atInterval <= atEnd.
Proof.
  intros p.
  apply (balance_is_monotone (mkCborGenCompatibleNode None) None
           10 100 50 0 600 900 150 300 false 3).
  - discriminate.
  - discriminate.
  - discriminate.
  - split; discriminate.
  - reflexivity.
  - split; reflexivity.
  - discriminate.
  - left. discriminate.
Defined.




(** X9. [PieceRetrievalPrice] is [Size * MinPricePerByte + UnsealPrice]
    for amounts that are set and [Size < 2^63], and it is what a deal at
    those terms costs in the end: with the unseal price covered, [Size]
    bytes sent and [IntervalLowerBound(Size)] returning (the balance runs
    that loop in finalization too, so that it returns no sooner), the
    balance in finalization is the quoted price less the funds received,
    or 0 when the funds exceed it. A response whose amounts were never
    set, like [QueryResponseUndefined], makes it panic. *)
Theorem quoted_price_is_final_balance
        (qr : QueryResponse) (sel : CborGenCompatibleNode)
        (piece : option Cid) (price unseal interval increase funds lb : Z) :
  let p := priced sel piece price interval increase unseal in
  MinPricePerByte qr = Some price ->
  ResponseUnsealPrice qr = Some unseal ->
  0 <= Size qr < 2 ^ 63 ->
  unseal <= funds ->
  IntervalLowerBound_returns p (Size qr) lb ->
  PieceRetrievalPrice qr = Ret (Some (Size qr * price + unseal))
  /\ OutstandingBalance_returns p (Some funds) (Size qr) true
       (Some (Z.max 0 (Size qr * price + unseal - funds)))
  /\ PieceRetrievalPrice QueryResponseUndefined = Panic.
Proof.
  intros p Hprice Hunseal Hsize Hfunds [fuel Hlb]. subst p.
  split; [|split; [|reflexivity]].
  - unfold PieceRetrievalPrice. rewrite Hprice, Hunseal. cbn.
    rewrite to_int64_small by lia. now rewrite Z.mul_comm.
  - exists fuel.
    rewrite (balance_value _ _ _ _ _ _ fuel funds (Size qr) lb true Hsize Hlb).
    unfold balanceDue.
    destruct (Z.ltb_spec funds unseal) as [|_]; [lia|].
    destruct (Z.eqb_spec price 0) as [->|_];
      apply (f_equal (fun z : Z => Ret (Some z))); lia.
Qed.

Lemma quoted_price_is_final_balance_witness :
  let qr := mkQueryResponse QueryResponseAvailable QueryItemAvailable 1000 []
                            (Some 10) 100 50 EmptyString (Some 20) in
  PieceRetrievalPrice qr = Ret (Some (1000 * 10 + 20))
  /\ OutstandingBalance_returns
       (priced (mkCborGenCompatibleNode None) None 10 100 50 20) (Some 10020)
       1000 true (Some (Z.max 0 (1000 * 10 + 20 - 10020)))
  /\ PieceRetrievalPrice QueryResponseUndefined = Panic.
Proof.
  intros qr.
  apply (quoted_price_is_final_balance qr (mkCborGenCompatibleNode None) None
           10 20 100 50 10020 1000).
  - reflexivity.
  - reflexivity.
  - split; [discriminate | reflexivity].
  - discriminate.
  - exists 6%nat. reflexivity.
Defined.

End BalanceMore.

(** ** More on the locator: what it asks of the provider node *)

Module LocatorMore.
Import DagStore.

Section Logs.

Variables World Reader : Type.
Variable GetPieceInfo : Cid -> World -> (string + PieceInfo) * World.
Variable IsUnsealed : Z -> Z -> Z -> World -> (string + bool) * World.
Variable UnsealSector : Z -> Z -> Z -> World -> (string + Reader) * World.

Local Abbreviation LW := (Logged World Reader).
Local Abbreviation lGet := (loggedGetPieceInfo World Reader GetPieceInfo).
Local Abbreviation lIs := (loggedIsUnsealed World Reader IsUnsealed).
Local Abbreviation lUn := (loggedUnsealSector World Reader UnsealSector).
Local Abbreviation pass1 :=
  (preferUnsealed World Reader IsUnsealed UnsealSector).
Local Abbreviation pass1L := (preferUnsealed LW Reader lIs lUn).
Local Abbreviation pass2 := (unsealFirst World Reader UnsealSector).
Local Abbreviation pass2L := (unsealFirst LW Reader lUn).

(** No event of the list handed a reader over. *)
Local Abbreviation quiet :=
  (Forall (fun e : Event Reader => gaveReader e = false)).

(** Every event of the list is a call on one of the deals. *)
Local Abbreviation within deals :=
  (Forall (fun e : Event Reader => exists d, In d deals /\ onDeal d e)).

Lemma within_more (d : DealInfo) (deals : list DealInfo)
      (ev : list (Event Reader)) :
  within deals ev -> within (d :: deals) ev.
Proof.
  apply Forall_impl. intros e (d' & Hin & Hon).
  exists d'. split; [now right | assumption].
Qed.

Lemma within_asked (d : DealInfo) (deals : list DealInfo)
      (a : string + bool) :
  exists d', In d' (d :: deals)
             /\ onDeal d' (@Asked Reader (SectorID d) (Unpadded (Offset d))
                                  (Unpadded (Length d)) a).
Proof. exists d. split; [now left | repeat split]. Qed.

Lemma within_opened (d : DealInfo) (deals : list DealInfo)
      (o : string + Reader) :
  exists d', In d' (d :: deals)
             /\ onDeal d' (Opened (SectorID d) (Unpadded (Offset d))
                                  (Unpadded (Length d)) o).
Proof. exists d. split; [now left | repeat split]. Qed.

Local Abbreviation askedOf d a :=
  (@Asked Reader (SectorID d) (Unpadded (Offset d)) (Unpadded (Length d)) a).
Local Abbreviation openedOf d o :=
  (@Opened Reader (SectorID d) (Unpadded (Offset d)) (Unpadded (Length d)) o).

Local Abbreviation ask := (isUnsealed World IsUnsealed).
Local Abbreviation askL := (isUnsealed LW lIs).
Local Abbreviation unseal := (unsealSector World Reader UnsealSector).
Local Abbreviation unsealL := (unsealSector LW Reader lUn).

Lemma logged_ask (d : DealInfo) (w : World) (log : list (Event Reader)) :
  askL d (w, log)
  = (fst (ask d w), (snd (ask d w), log ++ [askedOf d (fst (ask d w))])).
Proof.
  unfold isUnsealed, loggedIsUnsealed. cbn [fst snd].
  now destruct (IsUnsealed _ _ _ w).
Qed.

Lemma logged_unseal (d : DealInfo) (w : World) (log : list (Event Reader)) :
  unsealL d (w, log)
  = (fst (unseal d w),
     (snd (unseal d w), log ++ [openedOf d (fst (unseal d w))])).
Proof.
  unfold unsealSector, loggedUnsealSector. cbn [fst snd].
  now destruct (UnsealSector _ _ _ w).
Qed.

(** Pass one against the logging interfaces: the same outcome and state,
    and a log that grows by at most one check and one open per deal. *)
Lemma pass1_logged (deals : list DealInfo) :
  forall (w : World) (log : list (Event Reader)),
  exists ev,
    pass1L deals (w, log)
    = (fst (pass1 deals w), (snd (pass1 deals w), log ++ ev))
    /\ (List.length (filter isAsked ev) <= List.length deals)%nat
    /\ (List.length (filter isOpened ev) <= List.length deals)%nat
    /\ within deals ev
    /\ match fst (pass1 deals w) with
       | Some r => exists ev' s o l,
                     ev = ev' ++ [Opened s o l (inr r)] /\ quiet ev'
       | None => quiet ev
       end.
Proof.
  induction deals as [|d rest IH]; intros w log.
  - exists []. cbn. rewrite app_nil_r. repeat split; constructor.
  - cbn [preferUnsealed]. rewrite logged_ask.
    destruct (ask d w) as [a w1]. cbn [fst snd].
    assert (Hskip : exists ev,
               pass1L rest (w1, log ++ [askedOf d a])
               = (fst (pass1 rest w1), (snd (pass1 rest w1), log ++ ev))
               /\ (List.length (filter isAsked ev)
                   <= List.length (d :: rest))%nat
               /\ (List.length (filter isOpened ev)
                   <= List.length (d :: rest))%nat
               /\ within (d :: rest) ev
               /\ match fst (pass1 rest w1) with
                  | Some r => exists ev' s o l,
                                ev = ev' ++ [Opened s o l (inr r)] /\ quiet ev'
                  | None => quiet ev
                  end).
    { destruct (IH w1 (log ++ [askedOf d a])) as (ev & E & Ha & Ho & Hw & Hq).
      exists (askedOf d a :: ev). rewrite E, <- app_assoc. cbn [app].
      split; [reflexivity|]. cbn [filter isAsked isOpened List.length].
      split; [lia|]. split; [lia|].
      split; [constructor; [apply within_asked | now apply within_more]|].
      destruct (fst (pass1 rest w1)) as [r|].
      - destruct Hq as (ev' & s & o & l & -> & Hq).
        exists (askedOf d a :: ev'), s, o, l. split; [reflexivity|].
        now constructor.
      - now constructor. }
    destruct a as [e|[|]]; [exact Hskip | | exact Hskip].
    rewrite logged_unseal.
    destruct (unseal d w1) as [[e|r] w2]; cbn [fst snd].
    + destruct (IH w2 ((log ++ [askedOf d (inr true)]) ++ [openedOf d (inl e)]))
        as (ev & E & Ha & Ho & Hw & Hq).
      exists (askedOf d (inr true) :: openedOf d (inl e) :: ev).
      rewrite E, <- !app_assoc. cbn [app].
      split; [reflexivity|].
      cbn [filter isAsked isOpened List.length].
      split; [lia|]. split; [lia|].
      split; [constructor; [apply within_asked|];
              constructor; [apply within_opened | now apply within_more]|].
      destruct (fst (pass1 rest w2)) as [r|].
      * destruct Hq as (ev' & s & o & l & -> & Hq).
        exists (askedOf d (inr true) :: openedOf d (inl e) :: ev'), s, o, l.
        split; [reflexivity|].
        repeat constructor. assumption.
      * repeat constructor. assumption.
    + exists [askedOf d (inr true); openedOf d (inr r)].
      rewrite <- app_assoc. cbn [app].
      split; [reflexivity|].
      cbn [filter isAsked isOpened List.length].
      split; [lia|]. split; [lia|].
      split; [constructor; [apply within_asked|];
              constructor; [apply within_opened | constructor]|].
      exists [askedOf d (inr true)], (SectorID d), (Unpadded (Offset d)),
             (Unpadded (Length d)).
      split; [reflexivity | repeat constructor].
Qed.

(** Pass two against the logging interfaces: the same outcome and state,
    at most one open per deal, and an outcome that is the answer of the
    last call whenever a call is made. *)
Lemma pass2_logged (deals : list DealInfo) :
  forall (lastErr : string) (w : World) (log : list (Event Reader)),
  exists ev,
    pass2L deals lastErr (w, log)
    = (fst (pass2 deals lastErr w), (snd (pass2 deals lastErr w), log ++ ev))
    /\ filter isAsked ev = []
    /\ (List.length (filter isOpened ev) <= List.length deals)%nat
    /\ within deals ev
    /\ match fst (pass2 deals lastErr w) with
       | inr r => exists ev' s o l,
                    ev = ev' ++ [Opened s o l (inr r)] /\ quiet ev'
       | inl e => quiet ev
                  /\ ((ev = [] /\ e = lastErr /\ deals = [])
                      \/ exists ev' s o l, ev = ev' ++ [Opened s o l (inl e)])
       end.
Proof.
  induction deals as [|d rest IH]; intros lastErr w log.
  - exists []. cbn. rewrite app_nil_r.
    split; [reflexivity|]. split; [reflexivity|]. split; [lia|].
    split; [constructor|]. split; [constructor|]. left. repeat split.
  - cbn [unsealFirst]. rewrite logged_unseal.
    destruct (unseal d w) as [[e|r] w1]; cbn [fst snd].
    + destruct (IH e w1 (log ++ [openedOf d (inl e)]))
        as (ev & E & Ha & Ho & Hw & Hq).
      exists (openedOf d (inl e) :: ev). rewrite E, <- app_assoc. cbn [app].
      split; [reflexivity|].
      cbn [filter isAsked isOpened List.length].
      split; [assumption|]. split; [lia|].
      split; [constructor; [apply within_opened | now apply within_more]|].
      destruct (fst (pass2 rest e w1)) as [e'|r].
      * destruct Hq as [Hq Hlast]. split; [now constructor|]. right.
        destruct Hlast as [(-> & -> & _)|(ev' & s & o & l & ->)].
        -- exists [], (SectorID d), (Unpadded (Offset d)),
                  (Unpadded (Length d)). reflexivity.
        -- exists (openedOf d (inl e) :: ev'), s, o, l. reflexivity.
      * destruct Hq as (ev' & s & o & l & -> & Hq).
        exists (openedOf d (inl e) :: ev'), s, o, l.
        split; [reflexivity | now constructor].
    + exists [openedOf d (inr r)].
      split; [reflexivity|].
      cbn [filter isAsked isOpened List.length].
      split; [reflexivity|]. split; [lia|].
      split; [constructor; [apply within_opened | constructor]|].
      exists [], (SectorID d), (Unpadded (Offset d)), (Unpadded (Length d)).
      split; [reflexivity | constructor].
Qed.

Local Abbreviation fetch :=
  (FetchUnsealedPiece World Reader GetPieceInfo IsUnsealed UnsealSector).
Local Abbreviation fetchL :=
  (FetchUnsealedPieceLogged World Reader GetPieceInfo IsUnsealed UnsealSector).

(** The whole call against the logging interfaces. *)
Lemma fetch_logged (c : Cid) (w : World) :
  exists ev,
    fetchL c w = (fst (fetch c w), (snd (fetch c w), ev))
    /\ (forall e w0, GetPieceInfo c w = (inl e, w0) -> ev = [])
    /\ (forall pi w0, GetPieceInfo c w = (inr pi, w0) ->
        (List.length (filter isAsked ev) <= List.length (Deals pi))%nat
        /\ (List.length (filter isOpened ev) <= 2 * List.length (Deals pi))%nat
        /\ within (Deals pi) ev)
    /\ match fst (fetch c w) with
       | inr r => exists ev' s o l,
                    ev = ev' ++ [Opened s o l (inr r)] /\ quiet ev'
       | inl e => quiet ev
                  /\ (ev = [] \/ exists ev' s o l,
                                   ev = ev' ++ [Opened s o l (inl e)])
       end.
Proof.
  unfold FetchUnsealedPieceLogged, FetchUnsealedPiece, loggedGetPieceInfo.
  cbn [fst snd].
  destruct (GetPieceInfo c w) as [[e|pi] w0].
  { exists []. cbn [fst snd]. split; [reflexivity|].
    split; [reflexivity|]. split; [intros ? ? [=]|].
    split; [constructor | now left]. }
  destruct (List.length (Deals pi) <=? 0)%nat eqn:Hlen.
  { exists []. cbn [fst snd]. split; [reflexivity|].
    split; [intros ? ? [=]|].
    split; [intros ? ? [= <- <-]; cbn; repeat split; (lia || constructor)|].
    split; [constructor | now left]. }
  destruct (pass1_logged (Deals pi) w0 []) as (ev1 & E1 & Ha1 & Ho1 & Hw1 & Hq1).
  rewrite E1. cbn [app].
  destruct (pass1 (Deals pi) w0) as [[r|] w1]; cbn [fst snd] in *.
  { exists ev1. split; [reflexivity|]. split; [intros ? ? [=]|].
    split; [intros ? ? [= <- <-]; repeat split; (lia || assumption)|].
    exact Hq1. }
  destruct (pass2_logged (Deals pi) ErrNoSectors w1 ev1)
    as (ev2 & E2 & Ha2 & Ho2 & Hw2 & Hq2).
  rewrite E2. exists (ev1 ++ ev2).
  split; [reflexivity|]. split; [intros ? ? [=]|].
  split.
  { intros ? ? [= <- <-]. rewrite !filter_app, !length_app, Ha2.
    cbn [List.length]. repeat split; try lia.
    apply Forall_app. now split. }
  destruct (fst (pass2 (Deals pi) ErrNoSectors w1)) as [e|r].
  - destruct Hq2 as [Hq2 Hlast]. split; [apply Forall_app; now split|].
    destruct Hlast as [(_ & _ & Hnil)|(ev' & s & o & l & ->)].
    + rewrite Hnil in Hlen. discriminate.
    + right. exists (ev1 ++ ev'), s, o, l. now rewrite app_assoc.
  - destruct Hq2 as (ev' & s & o & l & -> & Hq2).
    exists (ev1 ++ ev'), s, o, l.
    split; [now rewrite app_assoc | apply Forall_app; now split].
Qed.

(** X10. [FetchUnsealedPiece] never drops a reader: in the log of its
    calls on the provider node at most one [UnsealSector] call hands a
    reader over, that call is the last one made, and its reader is the one
    returned. When an error is returned no call handed a reader over, and
    the error is that of the last call, an [UnsealSector], unless no call
    was made at all; it is never the error of an availability check. The
    logging changes neither the outcome nor the final state. *)
Theorem readers_are_never_dropped (c : Cid) (w : World) :
  let run := fetchL c w in
  fst run = fst (fetch c w)
  /\ fst (snd run) = snd (fetch c w)
  /\ match fst run with
     | inr r =>
         exists ev' s o l,
           snd (snd run) = ev' ++ [Opened s o l (inr r)] /\ quiet ev'
     | inl e =>
         quiet (snd (snd run))
         /\ (snd (snd run) = []
             \/ exists ev' s o l, snd (snd run) = ev' ++ [Opened s o l (inl e)])
     end.
Proof.
  destruct (fetch_logged c w) as (ev & E & _ & _ & H).
  cbv zeta. rewrite E. cbn [fst snd]. repeat split. exact H.
Qed.

(** X11. [FetchUnsealedPiece] asks little of the provider node: for a
    piece with [n] deals it makes at most [n] [IsUnsealed] calls and at
    most [2n] [UnsealSector] calls, every one of them on the sector of one
    of the deals with that deal's unpadded offset and length; and when the
    piece store fails it makes none. *)
Theorem calls_are_bounded (c : Cid) (w : World) :
  let log := snd (snd (fetchL c w)) in
  (forall e w0, GetPieceInfo c w = (inl e, w0) -> log = [])
  /\ (forall pi w0,
        GetPieceInfo c w = (inr pi, w0) ->
        (List.length (filter isAsked log) <= List.length (Deals pi))%nat
        /\ (List.length (filter isOpened log)
            <= 2 * List.length (Deals pi))%nat
        /\ within (Deals pi) log).
Proof.
  destruct (fetch_logged c w) as (ev & E & Hnone & Hsome & _).
  cbv zeta. rewrite E. cbn [fst snd]. split; assumption.
Qed.

End Logs.

Import ThreeLocations.

(** None of the three locations opens: three checks and four opens, the
    third location being opened in both passes. *)
Lemma calls_are_bounded_witness :
  let log := snd (snd (FetchUnsealedPieceLogged Trace Z
                         ThreeLocations.GetPieceInfo ThreeLocations.IsUnsealed
                         (ThreeLocations.UnsealSector (fun _ => false))
                         piece [])) in
  (List.length (filter isAsked log) <= 3)%nat
  /\ (List.length (filter isOpened log) <= 2 * 3)%nat
  /\ List.length (filter isOpened log) = 4%nat.
Proof.
  intros log.
  destruct (calls_are_bounded Trace Z ThreeLocations.GetPieceInfo
              ThreeLocations.IsUnsealed
              (ThreeLocations.UnsealSector (fun _ => false)) piece [])
    as [_ H].
  destruct (H (mkPieceInfo piece [one; two; three]) [] eq_refl)
    as (Hasked & Hopened & _).
  split; [exact Hasked|]. split; [exact Hopened | reflexivity].
Defined.

Section Stateless.

(** A piece store and a provider node whose answers depend on the
    arguments alone. *)
Variables World Reader : Type.
Variable lookup : Cid -> string + PieceInfo.
Variable available : Z -> Z -> Z -> string + bool.
Variable opening : Z -> Z -> Z -> string + Reader.

Local Abbreviation GetPieceInfo := (fun (c : Cid) (w : World) => (lookup c, w)).
Local Abbreviation IsUnsealed :=
  (fun (s o l : Z) (w : World) => (available s o l, w)).
Local Abbreviation UnsealSector :=
  (fun (s o l : Z) (w : World) => (opening s o l, w)).

Local Abbreviation availableAt d :=
  (available (SectorID d) (Unpadded (Offset d)) (Unpadded (Length d))).
Local Abbreviation openingAt d :=
  (opening (SectorID d) (Unpadded (Offset d)) (Unpadded (Length d))).

(** The deal has an unsealed copy that opens. *)
Local Abbreviation ready d :=
  (availableAt d = inr true /\ exists r, openingAt d = inr r).

Local Abbreviation pass1 :=
  (preferUnsealed World Reader IsUnsealed UnsealSector).
Local Abbreviation pass2 := (unsealFirst World Reader UnsealSector).

Lemma pass1_none (deals : list DealInfo) (w : World) :
  (forall d, In d deals -> ~ ready d) ->
  pass1 deals w = (None, w).
Proof.
  induction deals as [|d rest IH]; intros Hnot; [reflexivity|].
  cbn [preferUnsealed]. unfold isUnsealed, unsealSector.
  assert (Hrest : pass1 rest w = (None, w))
    by (apply IH; intros d' Hin; apply Hnot; now right).
  destruct (availableAt d) as [e|[|]] eqn:Ea; try exact Hrest.
  destruct (openingAt d) as [e|r] eqn:Eo; [exact Hrest|].
  exfalso. apply (Hnot d); [now left|]. split; [assumption | now exists r].
Qed.

Lemma pass1_first_ready (pre post : list DealInfo) (d : DealInfo)
      (r : Reader) (w : World) :
  (forall d', In d' pre -> ~ ready d') ->
  availableAt d = inr true ->
  openingAt d = inr r ->
  pass1 (pre ++ d :: post) w = (Some r, w).
Proof.
  intros Hnot Ha Ho. induction pre as [|d0 pre IH]; cbn [app preferUnsealed].
  - unfold isUnsealed, unsealSector. now rewrite Ha, Ho.
  - unfold isUnsealed, unsealSector.
    assert (Hrest : pass1 (pre ++ d :: post) w = (Some r, w))
      by (apply IH; intros d' Hin; apply Hnot; now right).
    destruct (availableAt d0) as [e|[|]] eqn:Ea; try exact Hrest.
    destruct (openingAt d0) as [e|r0] eqn:Eo; [exact Hrest|].
    exfalso. apply (Hnot d0); [now left|]. split; [assumption | now exists r0].
Qed.

Lemma pass2_first_opening (pre post : list DealInfo) (d : DealInfo)
      (r : Reader) (lastErr : string) (w : World) :
  (forall d', In d' pre -> exists e, openingAt d' = inl e) ->
  openingAt d = inr r ->
  pass2 (pre ++ d :: post) lastErr w = (inr r, w).
Proof.
  intros Hfail Ho. revert lastErr.
  induction pre as [|d0 pre IH]; intros lastErr; cbn [app unsealFirst];
    unfold unsealSector.
  - now rewrite Ho.
  - destruct (Hfail d0 ltac:(now left)) as [e ->].
    apply IH. intros d' Hin. apply Hfail. now right.
Qed.

Lemma pass2_all_fail (init : list DealInfo) (d : DealInfo)
      (e lastErr : string) (w : World) :
  (forall d', In d' init -> exists e', openingAt d' = inl e') ->
  openingAt d = inl e ->
  pass2 (init ++ [d]) lastErr w = (inl e, w).
Proof.
  intros Hfail Ho. revert lastErr.
  induction init as [|d0 init IH]; intros lastErr; cbn [app unsealFirst];
    unfold unsealSector.
  - now rewrite Ho.
  - destruct (Hfail d0 ltac:(now left)) as [e' ->].
    apply IH. intros d' Hin. apply Hfail. now right.
Qed.

(** X12. The order of preference, for a piece store and a provider node
    whose answers depend on their arguments alone: [FetchUnsealedPiece]
    returns the reader of the first deal that is unsealed and opens; when
    there is no such deal, the reader of the first deal that opens; and
    when no deal opens, the error of the last deal. *)
Theorem first_ready_then_first_opening (c : Cid) (w : World) (pi : PieceInfo) :
  lookup c = inr pi ->
  let fetch := FetchUnsealedPiece World Reader GetPieceInfo IsUnsealed
                                  UnsealSector in
  (forall pre d post r,
      Deals pi = pre ++ d :: post ->
      (forall d', In d' pre -> ~ ready d') ->
      availableAt d = inr true ->
      openingAt d = inr r ->
      fetch c w = (inr r, w))
  /\ (forall pre d post r,
        Deals pi = pre ++ d :: post ->
        (forall d', In d' (Deals pi) -> ~ ready d') ->
        (forall d', In d' pre -> exists e, openingAt d' = inl e) ->
        openingAt d = inr r ->
        fetch c w = (inr r, w))
  /\ (forall init d e,
        Deals pi = init ++ [d] ->
        (forall d', In d' init -> exists e', openingAt d' = inl e') ->
        openingAt d = inl e ->
        fetch c w = (inl e, w)).
Proof.
  intros Hlook fetch. subst fetch. unfold FetchUnsealedPiece. rewrite Hlook.
  split; [|split].
  - intros pre d post r Hd Hnot Ha Ho. rewrite Hd.
    replace (List.length (pre ++ d :: post) <=? 0)%nat with false
      by (rewrite length_app; cbn; symmetry; apply Nat.leb_gt; lia).
    now rewrite (pass1_first_ready pre post d r w Hnot Ha Ho).
  - intros pre d post r Hd Hnot Hfail Ho.
    rewrite (pass1_none (Deals pi) w Hnot). rewrite Hd.
    replace (List.length (pre ++ d :: post) <=? 0)%nat with false
      by (rewrite length_app; cbn; symmetry; apply Nat.leb_gt; lia).
    now apply pass2_first_opening.
  - intros init d e Hd Hfail Ho.
    assert (Hnot : forall d', In d' (Deals pi) -> ~ ready d').
    { intros d' Hin [_ [r Hr]]. rewrite Hd in Hin.
      apply in_app_or in Hin. destruct Hin as [Hin|[<-|[]]].
      - destruct (Hfail d' Hin) as [e' He']. congruence.
      - congruence. }
    rewrite (pass1_none (Deals pi) w Hnot). rewrite Hd.
    replace (List.length (init ++ [d]) <=? 0)%nat with false
      by (rewrite length_app; cbn; symmetry; apply Nat.leb_gt; lia).
    now apply pass2_all_fail.
Qed.

End Stateless.

(** The second of two deals is unsealed and opens, the first opens too:
    the reader of the second is returned. *)
Lemma first_ready_then_first_opening_witness :
  FetchUnsealedPiece unit Z
    (fun c w => (inr (mkPieceInfo c [one; two]), w))
    (fun s o l w => (inr (s =? 2), w))
    (fun s o l w => (inr s, w))
    piece tt
  = (inr 2, tt).
Proof.
  destruct (first_ready_then_first_opening unit Z
              (fun c => inr (mkPieceInfo c [one; two]))
              (fun s o l => inr (s =? 2))
              (fun s o l => inr s)
              piece tt (mkPieceInfo piece [one; two]) eq_refl)
    as [H _].
  apply (H [one] two [] 2).
  - reflexivity.
  - intros d' [<-|[]] [Ha _]. discriminate.
  - reflexivity.
  - reflexivity.
Defined.

(** X13. [GetUnpaddedCARSize] and [FetchUnsealedPiece] agree on when a
    piece can be served at all and not on its size. Whenever
    [FetchUnsealedPiece] returns a reader, [GetUnpaddedCARSize] returns
    the length of the first deal without touching the provider node;
    whenever [GetUnpaddedCARSize] fails, [FetchUnsealedPiece] fails in the
    same state. The size returned is the deal's [Length] as stored, while
    the provider node is asked for [Length - Length / 128] bytes of the
    same deal, which is less as soon as [Length >= 128]. *)
Theorem size_and_fetch
        (World Reader : Type)
        (GetPieceInfo : Cid -> World -> (string + PieceInfo) * World)
        (IsUnsealed : Z -> Z -> Z -> World -> (string + bool) * World)
        (UnsealSector : Z -> Z -> Z -> World -> (string + Reader) * World)
        (c : Cid) (w : World) :
  let fetch := FetchUnsealedPiece World Reader GetPieceInfo IsUnsealed
                                  UnsealSector in
  let size := GetUnpaddedCARSize World GetPieceInfo in
  (forall r w',
      fetch c w = (inr r, w') ->
      exists pi d rest w0,
        GetPieceInfo c w = (inr pi, w0)
        /\ Deals pi = d :: rest
        /\ size c w = (inr (Length d), w0))
  /\ (forall e w',
        size c w = (inl e, w') -> exists e', fetch c w = (inl e', w'))
  /\ (forall n w',
        size c w = (inr n, w') ->
        exists pi d rest,
          GetPieceInfo c w = (inr pi, w')
          /\ Deals pi = d :: rest
          /\ n = Length d
          /\ unsealSector World Reader UnsealSector d
             = UnsealSector (SectorID d) (Unpadded (Offset d)) (n - n / 128)
          /\ (128 <= n -> n - n / 128 < n)).
Proof.
  cbv zeta. unfold FetchUnsealedPiece, GetUnpaddedCARSize.
  destruct (GetPieceInfo c w) as [[e|pi] w0].
  - split; [intros ? ? [=]|]. split; [|intros ? ? [=]].
    intros e0 w' [= <- <-]. eexists. reflexivity.
  - destruct (Deals pi) as [|d rest] eqn:Hd; cbn [List.length Nat.leb].
    + split; [intros ? ? [=]|]. split; [|intros ? ? [=]].
      intros e0 w' [= <- <-]. eexists. reflexivity.
    + split; [|split].
      * intros r w' _. exists pi, d, rest, w0. now repeat split.
      * intros ? ? [=].
      * intros n w' [= <- <-]. exists pi, d, rest.
        repeat split; try assumption.
        intros Hn. assert (1 <= Length d / 128)
          by (apply Z.div_le_lower_bound; lia). lia.
Qed.

(** One deal of 1024 padded bytes: the size reported is 1024, the node is
    asked for 1016. *)
Lemma size_and_fetch_witness :
  exists pi d rest,
    ThreeLocations.GetPieceInfo piece [] = (inr pi, [])
    /\ Deals pi = d :: rest
    /\ 1024 = Length d
    /\ unsealSector Trace Z (ThreeLocations.UnsealSector (fun _ => true)) d
       = ThreeLocations.UnsealSector (fun _ => true) (SectorID d)
           (Unpadded (Offset d)) (1024 - 1024 / 128)
    /\ (128 <= 1024 -> 1024 - 1024 / 128 < 1024).
Proof.
  destruct (size_and_fetch Trace Z ThreeLocations.GetPieceInfo
              ThreeLocations.IsUnsealed
              (ThreeLocations.UnsealSector (fun _ => true)) piece [])
    as (_ & _ & H).
  apply (H 1024 []). reflexivity.
Defined.

End LocatorMore.

(** ** Identifiers and decoders *)

Module WireMore.
Import RetrievalMarket DealStates.

Open Scope string_scope.

(** Decimal digits contain no slash. *)
Lemma digits_have_no_slash (d : Decimal.uint) (x y : string) :
  NilEmpty.string_of_uint d <> x ++ String "/" y.
Proof.
  revert x. induction d as [|d IH|d IH|d IH|d IH|d IH|d IH|d IH|d IH|d IH|d IH];
    intros x; cbn [NilEmpty.string_of_uint];
    destruct x as [|a x]; cbn [append]; try discriminate;
    intros [= _ H]; now apply IH in H.
Qed.

Lemma DealID_String_has_no_slash (d : DealID) (x y : string) :
  DealID_String d <> x ++ String "/" y.
Proof.
  unfold DealID_String, NilZero.string_of_uint.
  destruct (N.to_uint (Z.to_N d)) eqn:E;
    try (rewrite <- E; apply digits_have_no_slash).
  destruct x as [|a [|b x]]; discriminate.
Qed.

(** A text is cut at its last slash in one way only. *)
Lemma cut_at_last_slash (a a' b b' : string) :
  (forall x y, b <> x ++ String "/" y) ->
  (forall x y, b' <> x ++ String "/" y) ->
  a ++ String "/" b = a' ++ String "/" b' ->
  a = a' /\ b = b'.
Proof.
  intros Hb Hb'. revert a'.
  induction a as [|c a IH]; intros [|c' a']; cbn [append].
  - intros [= ->]. now split.
  - intros [= _ H]. now apply Hb in H.
  - intros [= _ H]. symmetry in H. now apply Hb' in H.
  - intros [= -> H]. destruct (IH a' H) as [-> ->]. now split.
Qed.

Lemma DealID_String_injective (a b : DealID) :
  0 <= a -> 0 <= b -> DealID_String a = DealID_String b -> a = b.
Proof.
  intros Ha Hb H. unfold DealID_String in H.
  assert (Hnn : forall n, N.to_uint n <> Decimal.Nil).
  { intros [|q]; [discriminate|]. apply DecimalPos.Unsigned.to_uint_nonnil. }
  assert (E : Some (N.to_uint (Z.to_N a)) = Some (N.to_uint (Z.to_N b))).
  { rewrite <- (NilZero.usu _ (Hnn (Z.to_N a))),
            <- (NilZero.usu _ (Hnn (Z.to_N b))). now rewrite H. }
  injection E as E. apply DecimalN.Unsigned.to_uint_inj in E. lia.
Qed.

(** X14. The text of a provider deal identifier names one deal: when the
    text form of peers is injective, two identifiers (with deal IDs that
    are unsigned) with the same [String()] are the same identifier, so two
    provider deal states whose [Identifier()] prints alike have the same
    receiver and the same deal ID. *)
Theorem identifier_text_is_injective
        (PeerID_String : PeerID -> string) :
  (forall a b, PeerID_String a = PeerID_String b -> a = b) ->
  (forall p q : ProviderDealIdentifier,
      0 <= IdentifierDealID p ->
      0 <= IdentifierDealID q ->
      ProviderDealIdentifier_String PeerID_String p
      = ProviderDealIdentifier_String PeerID_String q ->
      p = q)
  /\ (forall pds pds' : ProviderDealState,
        0 <= ProposalID (ProviderProposal pds) ->
        0 <= ProposalID (ProviderProposal pds') ->
        ProviderDealIdentifier_String PeerID_String (Identifier pds)
        = ProviderDealIdentifier_String PeerID_String (Identifier pds') ->
        Receiver pds = Receiver pds'
        /\ ProposalID (ProviderProposal pds)
           = ProposalID (ProviderProposal pds')).
Proof.
  intros Hinj.
  assert (H : forall p q : ProviderDealIdentifier,
             0 <= IdentifierDealID p ->
             0 <= IdentifierDealID q ->
             ProviderDealIdentifier_String PeerID_String p
             = ProviderDealIdentifier_String PeerID_String q ->
             p = q).
  { intros [r d] [r' d'] Hd Hd'. unfold ProviderDealIdentifier_String.
    cbn [IdentifierReceiver IdentifierDealID append] in *. intros E.
    apply cut_at_last_slash in E; try apply DealID_String_has_no_slash.
    destruct E as [Er Ed].
    apply Hinj in Er. apply DealID_String_injective in Ed; try assumption.
    now subst. }
  split; [exact H|].
  intros pds pds' Hd Hd' E. apply H in E; try assumption.
  unfold Identifier in E. now injection E.
Qed.

(** Two provider deal states of the same deal with the same peer, at
    different moments of the deal. *)
Lemma identifier_text_is_injective_witness :
  let proposal := mkDealProposal [1] 42 (NewParamsV0 (Some 10) 100 50) in
  let early := mkProviderDealState proposal 5 None None 0 "12D3KooW"
                                   (Some 0) "" in
  let late := mkProviderDealState proposal 5 None None 13 "12D3KooW"
                                  (Some 1000) "ongoing" in
  ProviderDealIdentifier_String (fun s => s) (Identifier early) = "12D3KooW/42"
  /\ Receiver early = Receiver late
  /\ ProposalID (ProviderProposal early) = ProposalID (ProviderProposal late).
Proof.
  intros proposal early late. split; [reflexivity|].
  destruct (identifier_text_is_injective (fun s => s)) as [_ H].
  - intros a b E. exact E.
  - apply (H early late).
    + discriminate.
    + discriminate.
    + reflexivity.
Defined.

Section Decoders.

Variable TypeFromNode :
  IpldNode -> PtrType -> exec (GoValue * option string).

(** X15. What callers of the three decoders can rely on, whatever
    [shared.TypeFromNode] does: an error never comes with a record; a
    successful [TypeFromNode] gives no error, and the record is the one it
    bound when its value has the expected pointer type and nil, still
    without an error, when it has another type; and a panic of
    [TypeFromNode] is not recovered. *)
Theorem decoders_return_record_or_error (node : Node) :
  (forall rec e, DealProposalFromNode TypeFromNode node = Ret (rec, Some e) ->
                 rec = None)
  /\ (forall rec e, DealResponseFromNode TypeFromNode node = Ret (rec, Some e) ->
                    rec = None)
  /\ (forall rec e, DealPaymentFromNode TypeFromNode node = Ret (rec, Some e) ->
                    rec = None)
  /\ (forall n v,
        node = Some n ->
        (TypeFromNode n PtrDealProposal = Ret (v, None) ->
         DealProposalFromNode TypeFromNode node
         = Ret (match v with VDealProposal dp => dp | _ => None end, None))
        /\ (TypeFromNode n PtrDealResponse = Ret (v, None) ->
            DealResponseFromNode TypeFromNode node
            = Ret (match v with VDealResponse dr => dr | _ => None end, None))
        /\ (TypeFromNode n PtrDealPayment = Ret (v, None) ->
            DealPaymentFromNode TypeFromNode node
            = Ret (match v with VDealPayment dp => dp | _ => None end, None)))
  /\ (forall n,
        node = Some n ->
        (TypeFromNode n PtrDealProposal = Panic ->
         DealProposalFromNode TypeFromNode node = Panic)
        /\ (TypeFromNode n PtrDealResponse = Panic ->
            DealResponseFromNode TypeFromNode node = Panic)
        /\ (TypeFromNode n PtrDealPayment = Panic ->
            DealPaymentFromNode TypeFromNode node = Panic)).
Proof.
  unfold DealProposalFromNode, DealResponseFromNode, DealPaymentFromNode.
  repeat split.
  - intros rec e. destruct node as [n|]; [|cbn; congruence].
    destruct (TypeFromNode n PtrDealProposal) as [[v [e'|]]| |]; cbn;
      congruence.
  - intros rec e. destruct node as [n|]; [|cbn; congruence].
    destruct (TypeFromNode n PtrDealResponse) as [[v [e'|]]| |]; cbn;
      congruence.
  - intros rec e. destruct node as [n|]; [|cbn; congruence].
    destruct (TypeFromNode n PtrDealPayment) as [[v [e'|]]| |]; cbn;
      congruence.
  - subst node. intros ->. reflexivity.
  - subst node. intros ->. reflexivity.
  - subst node. intros ->. reflexivity.
  - subst node. intros ->. reflexivity.
  - subst node. intros ->. reflexivity.
  - subst node. intros ->. reflexivity.
Qed.

End Decoders.

(** A typed decoding that binds every node to a deal response: asked for a
    proposal, the decoder returns neither a record nor an error. *)
Lemma decoders_return_record_or_error_witness :
  let bindsResponse :=
    fun (_ : IpldNode) (_ : PtrType) =>
      Ret (VDealResponse (Some (mkDealResponse 0 1 (Some 0) "")), None) in
  DealProposalFromNode bindsResponse (Some NNull) = Ret (None, None)
  /\ DealResponseFromNode bindsResponse (Some NNull)
     = Ret (Some (mkDealResponse 0 1 (Some 0) ""), None).
Proof.
  intros bindsResponse.
  destruct (decoders_return_record_or_error bindsResponse (Some NNull))
    as (_ & _ & _ & H & _).
  destruct (H NNull (VDealResponse (Some (mkDealResponse 0 1 (Some 0) "")))
              eq_refl) as (Hproposal & Hresponse & _).
  split; [now apply Hproposal | now apply Hresponse].
Defined.

Close Scope string_scope.

End WireMore.
